(** * ctzn: the top-level router of the single-page application

    A shallow embedding of [static/js/app.js]: the three path patterns and
    the [render] switch that selects a view, the [CtznApp] element with its
    scroll-position cache, [navigateTo], the global click handler and the
    popstate handler.

    Conventions of the embedding.
    - A JavaScript string is a [string]; its characters are the 8-bit
      characters of [ascii] (the patterns of the program are ASCII).
    - A scroll offset ([window.scrollY]) is an integer number of pixels.
      The program only copies offsets and tests them for truthiness.
    - The fields of the element and the part of the browser it reads
      ([window.scrollY], [window.location], [history.scrollRestoration])
      form one record; the environment may change the browser part
      between two calls. Writes to the session history are recorded in
      the trace.
    - Handlers are computations in a state-and-exception monad [M]; every
      observable action (an emitted event, a history write, a scheduled
      scroll, a property assignment that requests a re-render) is also
      appended to a trace, so that the order of actions can be stated. *)

From Stdlib Require Import ZArith List String Ascii Bool Lia.
Import ListNotations.

Local Open Scope string_scope.
Local Open Scope bool_scope.

(** ** Regular expressions: the fragment used by the three path patterns *)

Module RegExp.

(** A class of characters: a pattern character, [.] or [[^c]]. *)
Inductive CharSet : Type :=
| Lit (c : ascii)
| Dot
| Not (c : ascii).

(** A term of a pattern: one character of a class, or [cs+]. Capturing
    parentheses do not change what [test] returns and are left out. *)
Inductive Term : Type :=
| One (cs : CharSet)
| Plus (cs : CharSet).

(** [new RegExp(source, flags)]: the flags used are none and ['i']. *)
Record t : Type := mk { pattern : list Term; ignoreCase : bool }.

Definition is_lower (c : ascii) : bool :=
  (97 <=? nat_of_ascii c)%nat && (nat_of_ascii c <=? 122)%nat.

(** Canonicalize of the language definition, on ASCII: with the ['i']
    flag a lower-case letter is compared through its upper-case form. *)
Definition canonicalize (i : bool) (c : ascii) : ascii :=
  if i && is_lower c then ascii_of_nat (nat_of_ascii c - 32) else c.

(** Line terminators, which [.] does not match. *)
Definition is_line_terminator (c : ascii) : bool :=
  Ascii.eqb c "010" || Ascii.eqb c "013".

Definition accepts (i : bool) (cs : CharSet) (x : ascii) : bool :=
  match cs with
  | Lit c => Ascii.eqb (canonicalize i x) (canonicalize i c)
  | Dot => negb (is_line_terminator x)
  | Not c => negb (Ascii.eqb (canonicalize i x) (canonicalize i c))
  end.

(** [cs+] followed by the continuation [k]: greedy, with backtracking. *)
Fixpoint repeat_plus (accept : ascii -> bool) (k : string -> bool)
         (s : string) : bool :=
  match s with
  | String x s' => accept x && (repeat_plus accept k s' || k s')
  | EmptyString => false
  end.

(** Does the pattern match at the start of [s]? *)
Fixpoint match_here (i : bool) (p : list Term) (s : string) {struct p}
  : bool :=
  match p with
  | [] => true
  | One cs :: p' =>
      match s with
      | String x s' => accepts i cs x && match_here i p' s'
      | EmptyString => false
      end
  | Plus cs :: p' => repeat_plus (accepts i cs) (match_here i p') s
  end.

(** The pattern is not anchored: every start position is tried. *)
Fixpoint search (i : bool) (p : list Term) (s : string) : bool :=
  match_here i p s ||
  match s with
  | String _ s' => search i p s'
  | EmptyString => false
  end.

(** [RegExp.prototype.test] (no [g] or [y] flag: no state is kept). *)
Definition test (r : t) (s : string) : bool :=
  search (ignoreCase r) (pattern r) s.

(** The pattern characters of a literal piece of the source. *)
Fixpoint chars (s : string) : list Term :=
  match s with
  | String "." s' => One Dot :: chars s'
  | String c s' => One (Lit c) :: chars s'
  | EmptyString => []
  end.

End RegExp.

(** [[^/]+@[^/]+], the address-like token shared by the three patterns. *)
Definition address_token : list RegExp.Term :=
  [RegExp.Plus (RegExp.Not "/"); RegExp.One (RegExp.Lit "@");
   RegExp.Plus (RegExp.Not "/")].

Definition POST_PATH_REGEX : RegExp.t :=
  RegExp.mk (RegExp.chars "/" ++ address_token
             ++ RegExp.chars "/ctzn.network/post/"
             ++ [RegExp.Plus (RegExp.Not "/")]) true.

Definition COMMENT_PATH_REGEX : RegExp.t :=
  RegExp.mk (RegExp.chars "/" ++ address_token
             ++ RegExp.chars "/ctzn.network/comment/"
             ++ [RegExp.Plus (RegExp.Not "/")]) true.

Definition USER_PATH_REGEX : RegExp.t :=
  RegExp.mk (RegExp.chars "/" ++ address_token) false.

(** ** The views selected by [render] *)

Inductive View : Type :=
| Spinner
| ctzn_main_view
| ctzn_forgot_password_view
| ctzn_notifications_view
| ctzn_communities_view
| ctzn_account_view
| ctzn_search_view
| ctzn_signup_view
| ctzn_post_view (current_path : string)
| ctzn_user_view (current_path : string)
| NotFound404.

(** The [switch] of [render]: the exact top-level paths. *)
Definition top_level (currentPath : string) : option View :=
  if currentPath =? "/" then Some ctzn_main_view
  else if currentPath =? "/index" then Some ctzn_main_view
  else if currentPath =? "/index.html" then Some ctzn_main_view
  else if currentPath =? "/forgot-password" then Some ctzn_forgot_password_view
  else if currentPath =? "/notifications" then Some ctzn_notifications_view
  else if currentPath =? "/communities" then Some ctzn_communities_view
  else if currentPath =? "/account" then Some ctzn_account_view
  else if currentPath =? "/search" then Some ctzn_search_view
  else if currentPath =? "/signup" then Some ctzn_signup_view
  else None.

(** The route resolver: [render] once loading is over. *)
Definition resolve (currentPath : string) : View :=
  match top_level currentPath with
  | Some v => v
  | None =>
      if RegExp.test POST_PATH_REGEX currentPath
      then ctzn_post_view currentPath
      else if RegExp.test COMMENT_PATH_REGEX currentPath
      then ctzn_post_view currentPath
      else if RegExp.test USER_PATH_REGEX currentPath
      then ctzn_user_view currentPath
      else NotFound404
  end.

Definition render (isLoading : bool) (currentPath : string) : View :=
  if isLoading then Spinner else resolve currentPath.

(** ** The element and the browser *)

(** The value of [scrollPositionCache] when it is defined:
    [{pathname, scrollY}]. *)
Module ScrollPosition.
Record t : Type := mk { pathname : string; scrollY : Z }.
End ScrollPosition.

(** The state payload of a session-history entry as this program meets it:
    [null] (an entry never stamped), or an object whose [scrollY] property
    is a number or is missing (the [{}] of [pushState]). *)
Inductive HistoryState : Type :=
| state_null
| state_object (state_scrollY : option Z).

Inductive ScrollRestoration : Type := auto_restoration | manual.

(** What a handler does that is visible from outside, in order. *)
Inductive Effect : Type :=
| Emit (type : string)
| ReplaceState (state : HistoryState)
| PushState (state : HistoryState) (url : string)
| SetCurrentPath (path : string)
| SetIsLoading (b : bool)
| PreventDefault
| ScrollToAfterLoad (y : Z).

Record World : Type :=
  { (* this *)
    currentPath : string;
    isLoading : bool;
    scrollPositionCache : option ScrollPosition.t;
    (* window *)
    window_scrollY : Z;
    location_origin : string;
    location_pathname : string;
    history_scrollRestoration : option ScrollRestoration;
    (* what has been done so far *)
    trace : list Effect }.

Definition with_currentPath (p : string) (w : World) : World :=
  {| currentPath := p; isLoading := isLoading w;
     scrollPositionCache := scrollPositionCache w;
     window_scrollY := window_scrollY w;
     location_origin := location_origin w;
     location_pathname := location_pathname w;
     history_scrollRestoration := history_scrollRestoration w;
     trace := trace w |}.

Definition with_isLoading (b : bool) (w : World) : World :=
  {| currentPath := currentPath w; isLoading := b;
     scrollPositionCache := scrollPositionCache w;
     window_scrollY := window_scrollY w;
     location_origin := location_origin w;
     location_pathname := location_pathname w;
     history_scrollRestoration := history_scrollRestoration w;
     trace := trace w |}.

Definition with_scrollPositionCache (c : option ScrollPosition.t) (w : World)
  : World :=
  {| currentPath := currentPath w; isLoading := isLoading w;
     scrollPositionCache := c;
     window_scrollY := window_scrollY w;
     location_origin := location_origin w;
     location_pathname := location_pathname w;
     history_scrollRestoration := history_scrollRestoration w;
     trace := trace w |}.

Definition with_window_scrollY (y : Z) (w : World) : World :=
  {| currentPath := currentPath w; isLoading := isLoading w;
     scrollPositionCache := scrollPositionCache w;
     window_scrollY := y;
     location_origin := location_origin w;
     location_pathname := location_pathname w;
     history_scrollRestoration := history_scrollRestoration w;
     trace := trace w |}.

Definition with_location_pathname (p : string) (w : World) : World :=
  {| currentPath := currentPath w; isLoading := isLoading w;
     scrollPositionCache := scrollPositionCache w;
     window_scrollY := window_scrollY w;
     location_origin := location_origin w;
     location_pathname := p;
     history_scrollRestoration := history_scrollRestoration w;
     trace := trace w |}.

Definition with_scrollRestoration (r : option ScrollRestoration) (w : World)
  : World :=
  {| currentPath := currentPath w; isLoading := isLoading w;
     scrollPositionCache := scrollPositionCache w;
     window_scrollY := window_scrollY w;
     location_origin := location_origin w;
     location_pathname := location_pathname w;
     history_scrollRestoration := r;
     trace := trace w |}.

Definition with_trace (t : list Effect) (w : World) : World :=
  {| currentPath := currentPath w; isLoading := isLoading w;
     scrollPositionCache := scrollPositionCache w;
     window_scrollY := window_scrollY w;
     location_origin := location_origin w;
     location_pathname := location_pathname w;
     history_scrollRestoration := history_scrollRestoration w;
     trace := t |}.

(** ** Computations that read and write the world and may throw *)

Inductive Exn : Type :=
| TypeError
| SecurityError
| Rejection (reason : string).

Inductive Completion (A : Type) : Type :=
| Normal (a : A)
| Throw (e : Exn).
Arguments Normal {A} a.
Arguments Throw {A} e.

Definition M (A : Type) : Type := World -> Completion A * World.

Definition ret {A : Type} (a : A) : M A := fun w => (Normal a, w).

Definition bind {A B : Type} (c : M A) (k : A -> M B) : M B :=
  fun w =>
    match c w with
    | (Normal a, w') => k a w'
    | (Throw e, w') => (Throw e, w')
    end.

Definition throw {A : Type} (e : Exn) : M A := fun w => (Throw e, w).

Definition gets {A : Type} (f : World -> A) : M A := fun w => (Normal (f w), w).

Definition modify (f : World -> World) : M unit := fun w => (Normal tt, f w).

Definition log (e : Effect) : M unit :=
  modify (fun w => with_trace (trace w ++ [e]) w).

(** [try { body } finally { cleanup }]: the cleanup runs whatever the
    completion of the body, which is then the completion of the whole,
    unless the cleanup itself throws. *)
Definition try_finally {A : Type} (body : M A) (cleanup : M unit) : M A :=
  fun w =>
    match body w with
    | (r, w') =>
        match cleanup w' with
        | (Normal _, w'') => (r, w'')
        | (Throw e, w'') => (Throw e, w'')
        end
    end.

Declare Scope js_scope.
Delimit Scope js_scope with js.
Notation "x <- c ;; k" := (bind c (fun x => k))
  (at level 61, c at next level, right associativity) : js_scope.
Notation "c ;; k" := (bind c (fun _ => k))
  (at level 61, right associativity) : js_scope.
Local Open Scope js_scope.

Definition when (b : bool) (c : M unit) : M unit := if b then c else ret tt.

(** The world a computation leaves, and how it completes. *)
Definition exec {A : Type} (c : M A) (w : World) : World := snd (c w).
Definition completion {A : Type} (c : M A) (w : World) : Completion A :=
  fst (c w).

(** The effects a computation adds to the trace of [w]. *)
Definition effects {A : Type} (c : M A) (w : World) : list Effect :=
  skipn (List.length (trace w)) (trace (exec c w)).

(** ** The collaborators outside this file *)

(** The result of [new URL(href, base)], of which the click handler reads
    [origin] and [pathname]. *)
Module URL.
Record t : Type := mk { origin : string; pathname : string }.
End URL.

(** An element (or another node) of a composed path: its [tagName], absent
    for the document and the window, and what [getAttribute('href')]
    returns. *)
Record Node : Type :=
  { tagName : option string; href : option string }.

(** A click event: [defaultPrevented] and [composedPath()], which starts
    at the target and ends at the window. *)
Record MouseEvent : Type :=
  { defaultPrevented : bool; composedPath : list Node }.

(** [e.detail.subject] of a [view-thread] event. *)
Record Subject : Type :=
  { authorId : string; dbUrl : string }.

(** Modelled from the spec: [emit] of [lib/dom.js], which is not among the
    sources; it broadcasts a notification without payload on the document. *)
Definition emit (type : string) : M unit := log (Emit type).

(** ** The methods of [CtznApp] *)

Definition set_currentPath (p : string) : M unit :=
  modify (with_currentPath p) ;; log (SetCurrentPath p).

Definition set_isLoading (b : bool) : M unit :=
  modify (with_isLoading b) ;; log (SetIsLoading b).

Definition history_replaceState (state : HistoryState) : M unit :=
  log (ReplaceState state).

(** [pushState] also moves [location] to the given URL, which is taken
    here to be an absolute path of the document's origin that the location
    reads back as it is. What the browser does with any other string is
    [history_pushState_checked] below. *)
Definition history_pushState (state : HistoryState) (url : string) : M unit :=
  log (PushState state url) ;; modify (with_location_pathname url).

Definition constructor : M unit :=
  set_isLoading true ;;
  p <- gets location_pathname ;;
  set_currentPath p ;;
  modify (with_scrollPositionCache None).

(** [load]: the [await] of the session bootstrap completes normally or by
    a thrown failure, [setup]; the [finally] block follows. The call of
    [load] that ends the constructor is not awaited: it is the separate
    operation [LoadSettled] below. *)
Definition load (setup : Completion unit) : M unit :=
  try_finally (fun w => (setup, w)) (set_isLoading false).

(** [async scrollToAfterLoad]: the call only schedules the scroll, which
    happens after the pending update; what fails then is caught there. *)
Definition scrollToAfterLoad (y : Z) : M unit := log (ScrollToAfterLoad y).

(** [prevScrollPositionCache?.pathname === pathname], and the offset that
    is then passed on. *)
Definition tryConsume (cache : option ScrollPosition.t) (pathname : string)
  : option Z :=
  match cache with
  | Some prev =>
      if ScrollPosition.pathname prev =? pathname
      then Some (ScrollPosition.scrollY prev)
      else None
  | None => None
  end.

Definition is_anchor_page (path : string) : bool :=
  (path =? "/") || (path =? "/notifications").

(** [navigateTo], for a path that [pushState] accepts and that the
    location reads back as it is; [navigateTo_checked] below follows the
    call for any string. *)
Definition navigateTo (pathname : string) : M unit :=
  r <- gets history_scrollRestoration ;;
  when (match r with Some _ => true | None => false end)
       (modify (with_scrollRestoration (Some manual))) ;;
  prevScrollPositionCache <- gets scrollPositionCache ;;
  cur <- gets currentPath ;;
  when (is_anchor_page cur)
       (y <- gets window_scrollY ;;
        modify (with_scrollPositionCache
                  (Some (ScrollPosition.mk cur y)))) ;;
  y <- gets window_scrollY ;;
  history_replaceState (state_object (Some y)) ;;
  history_pushState (state_object None) pathname ;;
  set_currentPath pathname ;;
  match tryConsume prevScrollPositionCache pathname with
  | Some y' => scrollToAfterLoad y'
  | None => ret tt
  end.

(** The loop over [e.composedPath()]: every anchor met replaces the one
    kept so far. *)
Definition is_A (el : Node) : bool :=
  match tagName el with
  | Some n => n =? "A"
  | None => false
  end.

Definition findAnchor (path : list Node) : option Node :=
  fold_left (fun anchor el => if is_A el then Some el else anchor) path None.

(** [e.state.scrollY]: reading a property of [null] throws. *)
Definition state_get_scrollY (state : HistoryState) : M (option Z) :=
  match state with
  | state_null => throw TypeError
  | state_object y => ret y
  end.

(** Truthiness of [e.state.scrollY]: a number other than zero. *)
Definition truthy (y : option Z) : bool :=
  match y with
  | Some n => negb (n =? 0)%Z
  | None => false
  end.

Definition onHistoryPopstate (state : HistoryState) : M unit :=
  emit "close-all-popups" ;;
  p <- gets location_pathname ;;
  set_currentPath p ;;
  y <- state_get_scrollY state ;;
  match y with
  | Some n => when (truthy y) (scrollToAfterLoad n)
  | None => ret tt
  end.

Definition onNavigateTo (url : string) : M unit := navigateTo url.

Section Collaborators.

(** [new URL(href, base)]; [None] when the constructor throws. *)
Variable URL_parse : string -> string -> option URL.t.

(** [dbUrl.split(DRIVE_KEY_REGEX)], the pattern being declared in
    [lib/strings.js]. *)
Variable split_DRIVE_KEY_REGEX : string -> list string.

Definition onGlobalClick (e : MouseEvent) : M unit :=
  if defaultPrevented e then ret tt
  else
    match findAnchor (composedPath e) with
    | None => ret tt
    | Some anchor =>
        match href anchor with
        | None => ret tt
        | Some h =>
            base <- gets location_origin ;;
            match URL_parse h base with
            | None => throw TypeError
            | Some url =>
                o <- gets location_origin ;;
                if URL.origin url =? o
                then log PreventDefault ;; navigateTo (URL.pathname url)
                else ret tt
            end
        end
    end.

(** [let [_, path] = ...split(...)]: the second piece, or [undefined],
    which the template literal prints as such. *)
Definition onViewThread (subject : Subject) : M unit :=
  let path := nth 1 (split_DRIVE_KEY_REGEX (dbUrl subject)) "undefined" in
  navigateTo ("/" ++ authorId subject ++ path).

(** ** Everything that can happen to the element once constructed *)

Inductive Operation : Type :=
| LoadSettled (setup : Completion unit)
| NavigateTo (pathname : string)
| GlobalClick (e : MouseEvent)
| ViewThread (subject : Subject)
| NavigateToEvent (url : string)
| HistoryPopstate (location : string) (state : HistoryState)
| UserScroll (y : Z).

(** A popstate event is delivered once the browser has moved [location]
    to the reactivated entry; scrolling is the user's. The
    scroll-restoration mode, which the browser keeps with each entry, is
    not followed across a traversal: [history_scrollRestoration] changes
    only where this program sets it. *)
Definition step (op : Operation) : M unit :=
  match op with
  | LoadSettled setup => load setup
  | NavigateTo pathname => navigateTo pathname
  | GlobalClick e => onGlobalClick e
  | ViewThread subject => onViewThread subject
  | NavigateToEvent url => onNavigateTo url
  | HistoryPopstate location state =>
      modify (with_location_pathname location) ;; onHistoryPopstate state
  | UserScroll y => modify (with_window_scrollY y)
  end.

Fixpoint run (ops : list Operation) (w : World) : World :=
  match ops with
  | [] => w
  | op :: ops' => run ops' (exec (step op) w)
  end.

End Collaborators.

(** ** Vocabulary for the statements *)

Fixpoint all_chars (f : ascii -> bool) (s : string) : bool :=
  match s with
  | String x s' => f x && all_chars f s'
  | EmptyString => true
  end.

Fixpoint contains (c : ascii) (s : string) : bool :=
  match s with
  | String x s' => Ascii.eqb x c || contains c s'
  | EmptyString => false
  end.

Definition not_slash (x : ascii) : bool := negb (Ascii.eqb x "/").

(** A segment of a path: no ['/'] in it. *)
Definition slash_free (s : string) : Prop := all_chars not_slash s = true.

(** The characters of [path] after its leading ['/'] and before the next. *)
Fixpoint up_to_slash (s : string) : string :=
  match s with
  | String x s' => if Ascii.eqb x "/" then EmptyString else String x (up_to_slash s')
  | EmptyString => EmptyString
  end.

Definition first_segment (path : string) : string :=
  match path with
  | String "/" s' => up_to_slash s'
  | _ => EmptyString
  end.

(** Some ['/'] of the path is followed by one or more characters other
    than ['/'], an ['@'], and one more character other than ['/']. *)
Definition has_address_segment (path : string) : Prop :=
  exists pre u c rest,
    path = pre ++ "/" ++ u ++ "@" ++ String c rest
    /\ u <> EmptyString /\ slash_free u /\ c <> "/"%char.

(** The thread shape in the words of the specification: an identity that
    contains an ['@'], the fixed segment, [post] or [comment], an id. *)
Definition thread_shaped (path : string) : Prop :=
  exists identity id,
    contains "@" identity = true /\ identity <> EmptyString /\ slash_free identity
    /\ id <> EmptyString /\ slash_free id
    /\ (path = "/" ++ identity ++ "/ctzn.network/post/" ++ id
        \/ path = "/" ++ identity ++ "/ctzn.network/comment/" ++ id).

(** The anchor of a composed path that is nearest to the target. *)
Definition nearestAnchor (path : list Node) : option Node := find is_A path.

(** The offsets of the scroll restorations among some effects. *)
Fixpoint scroll_restorations (l : list Effect) : list Z :=
  match l with
  | ScrollToAfterLoad y :: l' => y :: scroll_restorations l'
  | _ :: l' => scroll_restorations l'
  | [] => []
  end.

(** [navigateTo pathname], called when the window is scrolled to [y]. *)
Definition navigateTo_at (y : Z) (pathname : string) : M unit :=
  modify (with_window_scrollY y) ;; navigateTo pathname.

(** The invariant of the scroll-position cache. *)
Definition cache_invariant (w : World) : Prop :=
  match scrollPositionCache w with
  | Some c => ScrollPosition.pathname c = "/"
              \/ ScrollPosition.pathname c = "/notifications"
  | None => True
  end.

(** ** Sample collaborators and worlds, for the examples *)

(** A resolver of two kinds of [href]: an absolute path, which stays on
    the base origin, and a URL of the origin [https://elsewhere.example]. *)
Definition sample_URL_parse (h base : string) : option URL.t :=
  if prefix "/" h then Some (URL.mk base h)
  else if prefix "https://elsewhere.example/" h
  then Some (URL.mk "https://elsewhere.example"
                    (substring 25 (String.length h - 25) h))
  else None.

Definition sample_split (s : string) : list string :=
  [EmptyString; "/ctzn.network/post/1"].

Definition sample_world : World :=
  {| currentPath := "/notifications"; isLoading := false;
     scrollPositionCache := None;
     window_scrollY := 100;
     location_origin := "https://ctzn.example";
     location_pathname := "/notifications";
     history_scrollRestoration := Some auto_restoration;
     trace := [] |}.

Definition anchor_to (h : string) : Node :=
  {| tagName := Some "A"; href := Some h |}.

Definition element (name : string) : Node :=
  {| tagName := Some name; href := None |}.

(** ** The rest of [scrollToAfterLoad], and further vocabulary *)

(** [try { body } catch (e) {}]: what the body throws is dropped, what it
    did before throwing stays done. *)
Definition try_catch_ignore (body : M unit) : M unit :=
  fun w =>
    match body w with
    | (Normal _, w') => (Normal tt, w')
    | (Throw _, w') => (Normal tt, w')
    end.

(** [this.querySelector('#view')] once the update is complete: the element
    to which [render] gave the id [view]. The spinner and the 404 page
    carry no such id (the header of the 404 page is taken to hold none
    either), and the result is then [null]. *)
Definition querySelector_view (w : World) : option View :=
  match render (isLoading w) (currentPath w) with
  | Spinner => None
  | NotFound404 => None
  | v => Some v
  end.

Section Views.

(** The method [pageLoadScrollTo] of a view element, when the view has
    one; the views are declared in [views/]. *)
Variable pageLoadScrollTo : View -> option (Z -> M unit).

(** The body of [scrollToAfterLoad] after [await this.updateComplete]:
    calling a method of [null], or a method that is missing, throws a
    TypeError inside the [try]. *)
Definition scrollToAfterLoad_resume (y : Z) : M unit :=
  try_catch_ignore
    (view <- gets querySelector_view ;;
     match view with
     | None => throw TypeError
     | Some v =>
         match pageLoadScrollTo v with
         | None => throw TypeError
         | Some method => method y
         end
     end).

End Views.

(** [s] is the literal piece [lit] of a pattern up to the ['i'] flag: the
    same letters in any case, and any character but a line terminator
    where [lit] has a ['.']. *)
Fixpoint literal_variant (lit s : string) : bool :=
  match lit, s with
  | EmptyString, EmptyString => true
  | String a lit', String b s' =>
      (if Ascii.eqb a "."
       then negb (RegExp.is_line_terminator b)
       else Ascii.eqb (RegExp.canonicalize true b) (RegExp.canonicalize true a))
      && literal_variant lit' s'
  | _, _ => false
  end.

Definition is_history_write (e : Effect) : bool :=
  match e with
  | ReplaceState _ => true
  | PushState _ _ => true
  | _ => false
  end.

(** ** [pushState] as the browser decides it *)

Section PushState.

(** What the browser makes of the string given to [pushState], resolved
    against the document, whose location has the pathname [base]:
    [Some p] when the resulting URL is of the document's origin, [p]
    being its pathname (without query and fragment, and normalised), and
    [None] when it is not, in which case [pushState] throws a
    SecurityError and pushes nothing. *)
Variable pushState_resolve : string -> string -> option string.

Definition history_pushState_checked (state : HistoryState) (url : string)
  : M unit :=
  base <- gets location_pathname ;;
  match pushState_resolve base url with
  | Some p => log (PushState state url) ;; modify (with_location_pathname p)
  | None => throw SecurityError
  end.

(** [navigateTo] for any string: what follows [pushState] is not reached
    when it throws. *)
Definition navigateTo_checked (pathname : string) : M unit :=
  r <- gets history_scrollRestoration ;;
  when (match r with Some _ => true | None => false end)
       (modify (with_scrollRestoration (Some manual))) ;;
  prevScrollPositionCache <- gets scrollPositionCache ;;
  cur <- gets currentPath ;;
  when (is_anchor_page cur)
       (y <- gets window_scrollY ;;
        modify (with_scrollPositionCache
                  (Some (ScrollPosition.mk cur y)))) ;;
  y <- gets window_scrollY ;;
  history_replaceState (state_object (Some y)) ;;
  history_pushState_checked (state_object None) pathname ;;
  set_currentPath pathname ;;
  match tryConsume prevScrollPositionCache pathname with
  | Some y' => scrollToAfterLoad y'
  | None => ret tt
  end.

Definition navigateTo_checked_at (y : Z) (pathname : string) : M unit :=
  modify (with_window_scrollY y) ;; navigateTo_checked pathname.

(** A series of calls, each at its own offset; a call that throws leaves
    the next one to be made all the same. *)
Fixpoint navigate_through_checked (steps : list (Z * string)) (w : World)
  : World :=
  match steps with
  | [] => w
  | (y, pathname) :: steps' =>
      navigate_through_checked steps'
        (exec (navigateTo_checked_at y pathname) w)
  end.

Variable split_DRIVE_KEY_REGEX : string -> list string.

Definition onViewThread_checked (subject : Subject) : M unit :=
  let path := nth 1 (split_DRIVE_KEY_REGEX (dbUrl subject)) "undefined" in
  navigateTo_checked ("/" ++ authorId subject ++ path).

End PushState.

(** The world in which [pushState] is called, or would be. *)
Definition before_pushState (w : World) : World :=
  {| currentPath := currentPath w;
     isLoading := isLoading w;
     scrollPositionCache :=
       if is_anchor_page (currentPath w)
       then Some (ScrollPosition.mk (currentPath w) (window_scrollY w))
       else scrollPositionCache w;
     window_scrollY := window_scrollY w;
     location_origin := location_origin w;
     location_pathname := location_pathname w;
     history_scrollRestoration :=
       match history_scrollRestoration w with
       | Some _ => Some manual
       | None => None
       end;
     trace :=
       (trace w
        ++ [ReplaceState (state_object (Some (window_scrollY w)))])%list |}.

(** The characters of a string before its query and fragment. *)
Fixpoint before_query (s : string) : string :=
  match s with
  | String x s' =>
      if Ascii.eqb x "?" || Ascii.eqb x "#" then EmptyString
      else String x (before_query s')
  | EmptyString => EmptyString
  end.

(** A resolver for the examples. It covers the strings that start with
    ['/']: one that starts with ['//'] names another host and is refused,
    any other one stays on the origin and its pathname is what precedes
    the query; every other string is refused here. *)
Definition sample_pushState_resolve (base url : string) : option string :=
  if prefix "//" url then None
  else if prefix "/" url then Some (before_query url)
  else None.

(** * Properties *)

(** ** Strings *)

Lemma all_chars_app (f : ascii -> bool) (a b : string) :
  all_chars f (a ++ b) = all_chars f a && all_chars f b.
Proof.
  induction a as [|x a IH]; simpl; [reflexivity|].
  now rewrite IH, andb_assoc.
Qed.

Lemma contains_app (c : ascii) (a b : string) :
  contains c (a ++ b) = contains c a || contains c b.
Proof.
  induction a as [|x a IH]; simpl; [reflexivity|].
  now rewrite IH, orb_assoc.
Qed.

(** ** The matcher against a declarative reading of the patterns *)

Lemma repeat_plus_spec (accept : ascii -> bool) (k : string -> bool) (s : string) :
  RegExp.repeat_plus accept k s = true <->
  exists u v, s = u ++ v /\ u <> EmptyString /\ all_chars accept u = true /\ k v = true.
Proof.
  induction s as [|x s IH]; simpl.
  - split; [discriminate|].
    intros (u & v & E & Hu & _). destruct u; [congruence | discriminate].
  - rewrite andb_true_iff, orb_true_iff, IH. split.
    + intros [Hx [(u & v & E & Hu & Ha & Hk) | Hk]].
      * exists (String x u), v. simpl. rewrite Hx, Ha, E.
        repeat split; [discriminate | assumption].
      * exists (String x EmptyString), s. simpl. rewrite Hx.
        repeat split; [discriminate | assumption].
    + intros (u & v & E & Hu & Ha & Hk).
      destruct u as [|y u]; [congruence|].
      simpl in E, Ha. injection E as -> ->.
      apply andb_true_iff in Ha as [Hx Ha]. split; [assumption|].
      destruct u as [|z u].
      * right. assumption.
      * left. exists (String z u), v.
        repeat split; [discriminate | assumption | assumption].
Qed.

Lemma search_spec (i : bool) (p : list RegExp.Term) (s : string) :
  RegExp.search i p s = true <->
  exists pre suf, s = pre ++ suf /\ RegExp.match_here i p suf = true.
Proof.
  induction s as [|x s IH]; simpl.
  - rewrite orb_false_r. split.
    + intros H. exists EmptyString, EmptyString. now split.
    + intros (pre & suf & E & H).
      destruct pre; [simpl in E; now subst | discriminate].
  - rewrite orb_true_iff, IH. split.
    + intros [H | (pre & suf & E & H)].
      * exists EmptyString, (String x s). now split.
      * exists (String x pre), suf. simpl. now rewrite E.
    + intros (pre & suf & E & H). destruct pre as [|y pre]; simpl in E.
      * left. now subst.
      * right. injection E as -> ->. now exists pre, suf.
Qed.

(** With the ['i'] flag too, [[^/]] rejects ['/'] and nothing else. *)
Lemma accepts_not_slash (i : bool) (x : ascii) :
  RegExp.accepts i (RegExp.Not "/") x = not_slash x.
Proof.
  destruct i; [|reflexivity].
  destruct x as [[] [] [] [] [] [] [] []]; reflexivity.
Qed.

Lemma all_chars_ext (f g : ascii -> bool) (s : string) :
  (forall x, f x = g x) -> all_chars f s = all_chars g s.
Proof.
  intros E. induction s as [|x s IH]; simpl; [reflexivity | now rewrite E, IH].
Qed.

Lemma not_slash_true (c : ascii) : not_slash c = true <-> c <> "/"%char.
Proof.
  unfold not_slash. rewrite negb_true_iff. apply Ascii.eqb_neq.
Qed.

Lemma accepts_lit_at (i : bool) (x : ascii) :
  RegExp.accepts i (RegExp.Lit "@") x = Ascii.eqb x "@".
Proof.
  destruct i; [|reflexivity].
  destruct x as [[] [] [] [] [] [] [] []]; reflexivity.
Qed.

Lemma match_here_One (i : bool) (cs : RegExp.CharSet) (p : list RegExp.Term)
      (x : ascii) (s : string) :
  RegExp.match_here i (RegExp.One cs :: p) (String x s)
  = RegExp.accepts i cs x && RegExp.match_here i p s.
Proof. reflexivity. Qed.

Lemma match_here_Plus (i : bool) (cs : RegExp.CharSet) (p : list RegExp.Term)
      (s : string) :
  RegExp.match_here i (RegExp.Plus cs :: p) s
  = RegExp.repeat_plus (RegExp.accepts i cs) (RegExp.match_here i p) s.
Proof. reflexivity. Qed.

(** What [[^/]+@[^/]+] followed by [k] matches at the start of a string. *)
Lemma address_token_spec (i : bool) (k : list RegExp.Term) (s : string) :
  RegExp.match_here i (address_token ++ k) s = true <->
  exists u v rest,
    s = u ++ "@" ++ v ++ rest
    /\ u <> EmptyString /\ slash_free u /\ v <> EmptyString /\ slash_free v
    /\ RegExp.match_here i k rest = true.
Proof.
  unfold address_token, slash_free. cbn [app].
  rewrite match_here_Plus, repeat_plus_spec. split.
  - intros (u & s1 & -> & Hu & Hau & Hk).
    destruct s1 as [|x s1]; [discriminate|].
    rewrite match_here_One, match_here_Plus, accepts_lit_at in Hk.
    apply andb_true_iff in Hk as [Hx Hk].
    apply Ascii.eqb_eq in Hx as ->.
    apply repeat_plus_spec in Hk as (v & rest & -> & Hv & Hav & Hk).
    exists u, v, rest.
    rewrite (all_chars_ext _ _ u (accepts_not_slash i)) in Hau.
    rewrite (all_chars_ext _ _ v (accepts_not_slash i)) in Hav.
    repeat split; assumption.
  - intros (u & v & rest & -> & Hu & Hau & Hv & Hav & Hk).
    exists u, ("@" ++ v ++ rest).
    rewrite (all_chars_ext _ _ u (accepts_not_slash i)).
    repeat split; try assumption.
    cbn [append]. rewrite match_here_One, match_here_Plus, accepts_lit_at.
    rewrite Ascii.eqb_refl. cbn [andb].
    apply repeat_plus_spec. exists v, rest.
    rewrite (all_chars_ext _ _ v (accepts_not_slash i)).
    repeat split; assumption.
Qed.

Lemma chars_cons (x : ascii) (s : string) :
  RegExp.chars (String x s)
  = RegExp.One (if Ascii.eqb x "." then RegExp.Dot else RegExp.Lit x)
    :: RegExp.chars s.
Proof. destruct x as [[] [] [] [] [] [] [] []]; reflexivity. Qed.

(** A literal piece of a pattern matches itself. *)
Lemma match_here_chars (i : bool) (lit : string) (k : list RegExp.Term)
      (s : string) :
  RegExp.match_here i (RegExp.chars lit ++ k) (lit ++ s)
  = RegExp.match_here i k s.
Proof.
  induction lit as [|x lit IH]; [reflexivity|].
  rewrite chars_cons. cbn [app append]. rewrite match_here_One, IH.
  destruct (Ascii.eqb_spec x "."%char) as [->|_].
  - reflexivity.
  - cbn [RegExp.accepts]. now rewrite Ascii.eqb_refl.
Qed.

(** The unanchored profile pattern, read declaratively. *)
Lemma test_USER_PATH_REGEX (path : string) :
  RegExp.test USER_PATH_REGEX path = true <-> has_address_segment path.
Proof.
  unfold RegExp.test, USER_PATH_REGEX, has_address_segment.
  cbn [RegExp.ignoreCase RegExp.pattern].
  rewrite search_spec. split.
  - intros (pre & suf & -> & H).
    rewrite <- (app_nil_r address_token) in H.
    destruct suf as [|x suf]; [discriminate|].
    cbn [RegExp.chars app] in H. rewrite match_here_One in H.
    apply andb_true_iff in H as [Hx H].
    cbn in Hx. apply Ascii.eqb_eq in Hx. subst x.
    apply address_token_spec in H
      as (u & v & rest & -> & Hu & Hau & Hv & Hav & _).
    destruct v as [|c v]; [congruence|].
    exists pre, u, c, (v ++ rest).
    simpl in Hav. apply andb_true_iff in Hav as [Hc _].
    apply not_slash_true in Hc.
    repeat split; assumption.
  - intros (pre & u & c & rest & -> & Hu & Hau & Hc).
    exists pre, ("/" ++ u ++ "@" ++ String c rest). split; [reflexivity|].
    rewrite <- (app_nil_r address_token).
    rewrite match_here_chars.
    apply address_token_spec. exists u, (String c EmptyString), rest.
    repeat split; try assumption; try discriminate.
    unfold slash_free. simpl. apply not_slash_true in Hc. now rewrite Hc.
Qed.

(** A path of the thread shape is matched by the pattern of its kind. *)
Lemma thread_pattern_matches (kind u h rest : string) (c : ascii) :
  u <> EmptyString -> slash_free u -> h <> EmptyString -> slash_free h -> c <> "/"%char ->
  RegExp.search true
    (RegExp.chars "/" ++ address_token ++ RegExp.chars kind
       ++ [RegExp.Plus (RegExp.Not "/")])%list
    ("/" ++ u ++ "@" ++ h ++ kind ++ String c rest) = true.
Proof.
  intros Hu Hau Hh Hah Hc.
  apply search_spec. exists EmptyString, ("/" ++ u ++ "@" ++ h ++ kind ++ String c rest).
  split; [reflexivity|].
  rewrite match_here_chars.
  apply address_token_spec. exists u, h, (kind ++ String c rest).
  repeat split; try assumption.
  rewrite match_here_chars, match_here_Plus. cbn [RegExp.repeat_plus].
  rewrite accepts_not_slash. apply not_slash_true in Hc. rewrite Hc.
  cbn [RegExp.match_here andb]. apply orb_true_r.
Qed.

(** No exact top-level path has an ['@'] in it. *)
Lemma top_level_no_at (path : string) (v : View) :
  top_level path = Some v -> contains "@" path = false.
Proof.
  unfold top_level.
  repeat match goal with
         | |- context [String.eqb path ?l] =>
             destruct (String.eqb_spec path l) as [->|_]; [reflexivity|]
         end.
  discriminate.
Qed.

Lemma top_level_at (path : string) :
  contains "@" path = true -> top_level path = None.
Proof.
  intros H. destruct (top_level path) as [v|] eqn:E; [|reflexivity].
  apply top_level_no_at in E. congruence.
Qed.

(** ** The route resolver *)

(** [resolve] never fails and [render] shows the spinner while loading. *)
Lemma render_loading (path : string) : render true path = Spinner.
Proof. reflexivity. Qed.

Lemma resolve_aliases :
  resolve "/" = ctzn_main_view /\ resolve "/index" = ctzn_main_view
  /\ resolve "/index.html" = ctzn_main_view.
Proof. repeat split. Qed.

(** C2, as stated, fails: the identity ["@b"] contains an ['@'] and the path
    has the thread shape, yet [[^/]+@[^/]+] asks for a character on each
    side of the ['@'], no pattern matches and the path is not found. *)
Lemma C2_thread_shape_counterexample :
  thread_shaped "/@b/ctzn.network/post/1"
  /\ resolve "/@b/ctzn.network/post/1" = NotFound404
  /\ resolve "/@b/ctzn.network/post/1"
     <> ctzn_post_view "/@b/ctzn.network/post/1".
Proof.
  split; [|split; [reflexivity | discriminate]].
  exists "@b", "1". repeat split; try reflexivity; try discriminate.
  left. reflexivity.
Qed.

(** C2 (amended). For every path [/{identity}/ctzn.network/post/{id}] or
    [/{identity}/ctzn.network/comment/{id}] whose identity is [u@h] with
    [u] and [h] non-empty and free of ['/'], and whose id starts with a
    character other than ['/'], the resolver returns the thread view and
    not the profile view, although the profile pattern matches the path
    too: the thread patterns are tested first. *)
Theorem C2_thread_before_profile (u h kind rest : string) (c : ascii) :
  u <> EmptyString -> slash_free u -> h <> EmptyString -> slash_free h -> c <> "/"%char ->
  kind = "post" \/ kind = "comment" ->
  let path :=
    "/" ++ u ++ "@" ++ h ++ "/ctzn.network/" ++ kind ++ "/" ++ String c rest in
  resolve path = ctzn_post_view path
  /\ resolve path <> ctzn_user_view path
  /\ RegExp.test USER_PATH_REGEX path = true.
Proof.
  intros Hu Hau Hh Hah Hc Hkind path.
  assert (Hat : contains "@" path = true).
  { unfold path. cbn [append contains].
    rewrite contains_app. cbn [contains]. rewrite Ascii.eqb_refl.
    cbn [orb]. now rewrite !orb_true_r. }
  assert (Hpost : resolve path = ctzn_post_view path).
  { unfold resolve. rewrite (top_level_at _ Hat).
    destruct Hkind as [-> | ->].
    - assert (E : RegExp.test POST_PATH_REGEX path = true).
      { apply (thread_pattern_matches "/ctzn.network/post/"); assumption. }
      now rewrite E.
    - assert (E : RegExp.test COMMENT_PATH_REGEX path = true).
      { apply (thread_pattern_matches "/ctzn.network/comment/"); assumption. }
      rewrite E. now destruct (RegExp.test POST_PATH_REGEX path). }
  split; [assumption|]. split; [rewrite Hpost; discriminate|].
  apply test_USER_PATH_REGEX.
  destruct h as [|d h]; [congruence|].
  exists EmptyString, u, d, (h ++ "/ctzn.network/" ++ kind ++ "/" ++ String c rest).
  unfold slash_free in Hah. cbn [all_chars] in Hah.
  apply andb_true_iff in Hah as [Hd _]. apply not_slash_true in Hd.
  repeat split; assumption.
Qed.

Lemma C2_thread_before_profile_witness :
  resolve "/a@b/ctzn.network/post/123"
  = ctzn_post_view "/a@b/ctzn.network/post/123"
  /\ resolve "/a@b/ctzn.network/post/123"
     <> ctzn_user_view "/a@b/ctzn.network/post/123"
  /\ RegExp.test USER_PATH_REGEX "/a@b/ctzn.network/post/123" = true.
Proof.
  apply (C2_thread_before_profile "a" "b" "post" "23" "1"%char);
    solve [discriminate | reflexivity | left; reflexivity].
Defined.

(** C3, as stated, fails: the profile pattern is not anchored at the start
    of the path, so ['/foo/bar@baz'], whose first segment has no ['@'],
    resolves to the profile view and not to the not-found view. *)
Lemma C3_first_segment_counterexample :
  top_level "/foo/bar@baz" = None
  /\ RegExp.test POST_PATH_REGEX "/foo/bar@baz" = false
  /\ RegExp.test COMMENT_PATH_REGEX "/foo/bar@baz" = false
  /\ contains "@" (first_segment "/foo/bar@baz") = false
  /\ resolve "/foo/bar@baz" = ctzn_user_view "/foo/bar@baz"
  /\ resolve "/foo/bar@baz" <> NotFound404.
Proof. repeat split; discriminate. Qed.

(** C3 (amended). For every path that is no exact top-level path and that
    neither thread pattern matches, the resolver returns the profile view
    if and only if some ['/'] of the path, the first or a later one, is
    followed by one or more characters other than ['/'], an ['@'] and one
    more character other than ['/']; every other such path resolves to
    the not-found view. *)
Theorem C3_profile_iff_address_segment (path : string) :
  top_level path = None ->
  RegExp.test POST_PATH_REGEX path = false ->
  RegExp.test COMMENT_PATH_REGEX path = false ->
  (resolve path = ctzn_user_view path <-> has_address_segment path)
  /\ (~ has_address_segment path -> resolve path = NotFound404).
Proof.
  intros Htop Hpost Hcomment. unfold resolve.
  rewrite Htop, Hpost, Hcomment, <- test_USER_PATH_REGEX.
  destruct (RegExp.test USER_PATH_REGEX path); split.
  - split; reflexivity.
  - intros H. now contradiction H.
  - split; discriminate.
  - reflexivity.
Qed.

Lemma C3_profile_iff_address_segment_witness :
  (resolve "/foo/bar@baz" = ctzn_user_view "/foo/bar@baz"
   <-> has_address_segment "/foo/bar@baz")
  /\ (~ has_address_segment "/foo/bar@baz"
      -> resolve "/foo/bar@baz" = NotFound404).
Proof.
  apply (C3_profile_iff_address_segment "/foo/bar@baz"); reflexivity.
Defined.

(** ** [navigateTo] *)

Lemma skipn_length_app {A : Type} (l l' : list A) :
  skipn (List.length l) (l ++ l') = l'.
Proof. induction l as [|x l IH]; [reflexivity | exact IH]. Qed.

Lemma effects_of_trace {A : Type} (c : M A) (w : World) (l : list Effect) :
  trace (exec c w) = (trace w ++ l)%list -> effects c w = l.
Proof. unfold effects. intros ->. apply skipn_length_app. Qed.

(** What one call of [navigateTo] leaves behind. It never throws. *)
Lemma navigateTo_run (p : string) (w : World) :
  navigateTo p w =
  (Normal tt,
   {| currentPath := p;
      isLoading := isLoading w;
      scrollPositionCache :=
        if is_anchor_page (currentPath w)
        then Some (ScrollPosition.mk (currentPath w) (window_scrollY w))
        else scrollPositionCache w;
      window_scrollY := window_scrollY w;
      location_origin := location_origin w;
      location_pathname := p;
      history_scrollRestoration :=
        match history_scrollRestoration w with
        | Some _ => Some manual
        | None => None
        end;
      trace :=
        (trace w
         ++ [ReplaceState (state_object (Some (window_scrollY w)));
             PushState (state_object None) p;
             SetCurrentPath p]
         ++ match tryConsume (scrollPositionCache w) p with
            | Some y => [ScrollToAfterLoad y]
            | None => []
            end)%list |}).
Proof.
  destruct w as [cur ld cache y o loc r tr].
  cbv [navigateTo bind gets when modify ret history_replaceState
       history_pushState set_currentPath scrollToAfterLoad log
       with_currentPath with_scrollPositionCache with_scrollRestoration
       with_location_pathname with_trace
       currentPath scrollPositionCache history_scrollRestoration
       window_scrollY isLoading location_origin location_pathname trace].
  destruct r, (is_anchor_page cur), (tryConsume cache p);
    cbv beta iota; repeat rewrite <- app_assoc; reflexivity.
Qed.

Lemma navigateTo_effects (p : string) (w : World) :
  effects (navigateTo p) w =
  ([ReplaceState (state_object (Some (window_scrollY w)));
    PushState (state_object None) p;
    SetCurrentPath p]
   ++ match tryConsume (scrollPositionCache w) p with
      | Some y => [ScrollToAfterLoad y]
      | None => []
      end)%list.
Proof.
  apply effects_of_trace. unfold exec. now rewrite navigateTo_run.
Qed.

Lemma navigateTo_scroll_restorations (p : string) (w : World) :
  scroll_restorations (effects (navigateTo p) w) =
  match tryConsume (scrollPositionCache w) p with
  | Some y => [y]
  | None => []
  end.
Proof.
  rewrite navigateTo_effects.
  now destruct (tryConsume (scrollPositionCache w) p).
Qed.

Lemma navigateTo_cache (p : string) (w : World) :
  scrollPositionCache (exec (navigateTo p) w) =
  if is_anchor_page (currentPath w)
  then Some (ScrollPosition.mk (currentPath w) (window_scrollY w))
  else scrollPositionCache w.
Proof. unfold exec. now rewrite navigateTo_run. Qed.

Lemma navigateTo_currentPath (p : string) (w : World) :
  currentPath (exec (navigateTo p) w) = p.
Proof. unfold exec. now rewrite navigateTo_run. Qed.

Lemma navigateTo_at_run (y : Z) (p : string) (w : World) :
  navigateTo_at y p w = navigateTo p (with_window_scrollY y w).
Proof. reflexivity. Qed.

(** C1, as stated, fails. Starting on ['/notifications'], the first call
    leaves ['/notifications'] at offset 100 and the second call leaves it
    again at offset 250: the third call restores 250, the offset of the
    second departure, and not the 100 captured by the first call. *)
Lemma C1_round_trip_counterexample :
  let w1 := exec (navigateTo_at 100 "/notifications") sample_world in
  let w2 := exec (navigateTo_at 250 "/") w1 in
  currentPath sample_world = "/notifications"
  /\ scrollPositionCache w1 = Some (ScrollPosition.mk "/notifications" 100)
  /\ scroll_restorations (effects (navigateTo_at 0 "/notifications") w2)
     = [250%Z]
  /\ scroll_restorations (effects (navigateTo_at 0 "/notifications") w2)
     <> [100%Z].
Proof. repeat split; discriminate. Qed.

(** C1 (amended). For the calls [navigateTo('/notifications')],
    [navigateTo('/')], [navigateTo('/notifications')] starting with
    CurrentPath ['/notifications'], made at the scroll offsets [y1], [y2]
    and [y3]: the first call caches [y1], the second call leaves
    ['/notifications'] once more and caches [y2] over it, and the third
    call schedules one scroll restoration, to [y2], although its own
    departure from ['/'] has by then overwritten the cache with [y3]; the
    restored offset is the one the first call captured when [y1 = y2]. *)
Theorem C1_round_trip (w0 : World) (y1 y2 y3 : Z) :
  currentPath w0 = "/notifications" ->
  let w1 := exec (navigateTo_at y1 "/notifications") w0 in
  let w2 := exec (navigateTo_at y2 "/") w1 in
  let w3 := exec (navigateTo_at y3 "/notifications") w2 in
  scrollPositionCache w1 = Some (ScrollPosition.mk "/notifications" y1)
  /\ scrollPositionCache w2 = Some (ScrollPosition.mk "/notifications" y2)
  /\ scroll_restorations (effects (navigateTo_at y3 "/notifications") w2)
     = [y2]
  /\ scrollPositionCache w3 = Some (ScrollPosition.mk "/" y3)
  /\ (y1 = y2 ->
      scroll_restorations (effects (navigateTo_at y3 "/notifications") w2)
      = [y1]).
Proof.
  intros H0 w1 w2 w3.
  assert (E1 : w1 = exec (navigateTo "/notifications")
                          (with_window_scrollY y1 w0)) by reflexivity.
  assert (Hc1 : scrollPositionCache w1
               = Some (ScrollPosition.mk "/notifications" y1)).
  { rewrite E1, navigateTo_cache. cbn. now rewrite H0. }
  assert (P1 : currentPath w1 = "/notifications").
  { rewrite E1. apply navigateTo_currentPath. }
  assert (E2 : w2 = exec (navigateTo "/") (with_window_scrollY y2 w1))
    by reflexivity.
  assert (Hc2 : scrollPositionCache w2
               = Some (ScrollPosition.mk "/notifications" y2)).
  { rewrite E2, navigateTo_cache. cbn. now rewrite P1. }
  assert (P2 : currentPath w2 = "/").
  { rewrite E2. apply navigateTo_currentPath. }
  assert (S3 : scroll_restorations
                 (effects (navigateTo_at y3 "/notifications") w2) = [y2]).
  { unfold effects, exec. rewrite navigateTo_at_run, navigateTo_run.
    cbn [snd trace with_window_scrollY scrollPositionCache].
    rewrite skipn_length_app, Hc2. reflexivity. }
  repeat split; try assumption.
  - unfold w3, exec. rewrite navigateTo_at_run.
    fold (exec (navigateTo "/notifications") (with_window_scrollY y3 w2)).
    rewrite navigateTo_cache. cbn. now rewrite P2.
  - intros ->. exact S3.
Qed.

Lemma C1_round_trip_witness :
  let w1 := exec (navigateTo_at 100 "/notifications") sample_world in
  let w2 := exec (navigateTo_at 250 "/") w1 in
  let w3 := exec (navigateTo_at 0 "/notifications") w2 in
  scrollPositionCache w1 = Some (ScrollPosition.mk "/notifications" 100)
  /\ scrollPositionCache w2 = Some (ScrollPosition.mk "/notifications" 250)
  /\ scroll_restorations (effects (navigateTo_at 0 "/notifications") w2)
     = [250%Z]
  /\ scrollPositionCache w3 = Some (ScrollPosition.mk "/" 0)
  /\ (100%Z = 250%Z ->
      scroll_restorations (effects (navigateTo_at 0 "/notifications") w2)
      = [100%Z]).
Proof. apply (C1_round_trip sample_world 100 250 0). reflexivity. Defined.

(** ** The scroll-position cache *)

Lemma tryConsume_Some (c : ScrollPosition.t) (p : string) (y : Z) :
  tryConsume (Some c) p = Some y
  <-> ScrollPosition.pathname c = p /\ y = ScrollPosition.scrollY c.
Proof.
  unfold tryConsume.
  destruct (String.eqb_spec (ScrollPosition.pathname c) p) as [E|E]; split.
  - intros [= <-]. now split.
  - intros [_ ->]. reflexivity.
  - discriminate.
  - intros [E' _]. contradiction.
Qed.

Lemma tryConsume_None (c : ScrollPosition.t) (p : string) :
  tryConsume (Some c) p = None <-> ScrollPosition.pathname c <> p.
Proof.
  unfold tryConsume.
  destruct (String.eqb_spec (ScrollPosition.pathname c) p) as [E|E]; split;
    try discriminate; try contradiction; trivial.
Qed.

(** C9. For every cached record and every pathname [p], the consume step
    of [navigateTo p] yields the cached offset exactly when the cached
    pathname is [p], by string equality, and yields nothing otherwise; so
    consuming ['/x'] yields nothing unless the record was captured for
    exactly ['/x'], a trailing slash making a different pathname. *)
Theorem C9_consume_exact (w : World) (c : ScrollPosition.t) (p : string) :
  scrollPositionCache w = Some c ->
  (forall y, tryConsume (Some c) p = Some y
             <-> ScrollPosition.pathname c = p /\ y = ScrollPosition.scrollY c)
  /\ (ScrollPosition.pathname c = p ->
      scroll_restorations (effects (navigateTo p) w)
      = [ScrollPosition.scrollY c])
  /\ (ScrollPosition.pathname c <> p ->
      tryConsume (Some c) p = None
      /\ scroll_restorations (effects (navigateTo p) w) = [])
  /\ (forall q y, q <> "/x" ->
                  tryConsume (Some (ScrollPosition.mk q y)) "/x" = None)
  /\ (forall y, tryConsume (Some (ScrollPosition.mk "/x/" y)) "/x" = None).
Proof.
  intros Hc. split; [intros y; apply tryConsume_Some|].
  rewrite navigateTo_scroll_restorations, Hc.
  split; [|split; [|split]].
  - intros E.
    assert (H : tryConsume (Some c) p = Some (ScrollPosition.scrollY c))
      by now apply tryConsume_Some.
    now rewrite H.
  - intros E. apply tryConsume_None in E. now rewrite E.
  - intros q y E. now apply tryConsume_None.
  - reflexivity.
Qed.

Lemma C9_consume_exact_witness :
  let c := ScrollPosition.mk "/notifications" 250 in
  let w := with_scrollPositionCache (Some c) sample_world in
  (forall y, tryConsume (Some c) "/notifications" = Some y
             <-> ScrollPosition.pathname c = "/notifications"
                 /\ y = ScrollPosition.scrollY c)
  /\ (ScrollPosition.pathname c = "/notifications" ->
      scroll_restorations (effects (navigateTo "/notifications") w)
      = [ScrollPosition.scrollY c])
  /\ (ScrollPosition.pathname c <> "/notifications" ->
      tryConsume (Some c) "/notifications" = None
      /\ scroll_restorations (effects (navigateTo "/notifications") w) = [])
  /\ (forall q y, q <> "/x" ->
                  tryConsume (Some (ScrollPosition.mk q y)) "/x" = None)
  /\ (forall y, tryConsume (Some (ScrollPosition.mk "/x/" y)) "/x" = None).
Proof.
  intros c w.
  apply (C9_consume_exact w c "/notifications"). reflexivity.
Defined.

Lemma is_anchor_page_true (p : string) :
  is_anchor_page p = true <-> p = "/" \/ p = "/notifications".
Proof.
  unfold is_anchor_page. rewrite orb_true_iff, !String.eqb_eq. reflexivity.
Qed.

Lemma navigateTo_cache_invariant (p : string) (w : World) :
  cache_invariant w -> cache_invariant (exec (navigateTo p) w).
Proof.
  unfold cache_invariant. rewrite navigateTo_cache.
  destruct (is_anchor_page (currentPath w)) eqn:E; [|trivial].
  intros _. now apply is_anchor_page_true.
Qed.

(** The three ways a click can end. *)
Lemma onGlobalClick_cases (URL_parse : string -> string -> option URL.t)
      (e : MouseEvent) (w : World) :
  onGlobalClick URL_parse e w = (Normal tt, w)
  \/ onGlobalClick URL_parse e w = (Throw TypeError, w)
  \/ exists p,
      onGlobalClick URL_parse e w
      = navigateTo p (with_trace (trace w ++ [PreventDefault]) w).
Proof.
  unfold onGlobalClick.
  destruct (defaultPrevented e); [now left|].
  destruct (findAnchor (composedPath e)) as [a|]; [|now left].
  destruct (href a) as [h|]; [|now left].
  cbv [bind gets].
  destruct (URL_parse h (location_origin w)) as [url|]; [|right; now left].
  destruct (URL.origin url =? location_origin w); [|now left].
  right. right. exists (URL.pathname url). reflexivity.
Qed.

Lemma onHistoryPopstate_run (state : HistoryState) (w : World) :
  onHistoryPopstate state w =
  (match state with
   | state_null => Throw TypeError
   | state_object _ => Normal tt
   end,
   with_trace
     (trace w
      ++ [Emit "close-all-popups"; SetCurrentPath (location_pathname w)]
      ++ match state with
         | state_object (Some n) =>
             if (n =? 0)%Z then [] else [ScrollToAfterLoad n]
         | _ => []
         end)%list
     (with_currentPath (location_pathname w) w)).
Proof.
  destruct w as [cur ld cache y o loc r tr].
  destruct state as [|[n|]];
    cbv [onHistoryPopstate emit bind gets when modify ret throw log
         set_currentPath state_get_scrollY truthy scrollToAfterLoad
         with_currentPath with_trace
         currentPath scrollPositionCache history_scrollRestoration
         window_scrollY isLoading location_origin location_pathname trace];
    try (destruct (n =? 0)%Z; cbv [negb]);
    repeat rewrite <- app_assoc; reflexivity.
Qed.

Lemma load_run (setup : Completion unit) (w : World) :
  load setup w
  = (setup, with_trace (trace w ++ [SetIsLoading false])
                       (with_isLoading false w)).
Proof. destruct w; reflexivity. Qed.

Lemma step_cache_invariant
      (URL_parse : string -> string -> option URL.t)
      (split_DRIVE_KEY_REGEX : string -> list string)
      (op : Operation) (w : World) :
  cache_invariant w ->
  cache_invariant (exec (step URL_parse split_DRIVE_KEY_REGEX op) w).
Proof.
  intros H. destruct op as [setup|p|e|subject|url|loc state|y]; cbn [step].
  - unfold exec. now rewrite load_run.
  - now apply navigateTo_cache_invariant.
  - unfold exec.
    destruct (onGlobalClick_cases URL_parse e w) as [E|[E|[p E]]];
      rewrite E; try assumption.
    now apply (navigateTo_cache_invariant p
                 (with_trace (trace w ++ [PreventDefault]) w)).
  - now apply navigateTo_cache_invariant.
  - now apply navigateTo_cache_invariant.
  - unfold exec, bind, modify. rewrite onHistoryPopstate_run. exact H.
  - exact H.
Qed.

(** C6. The cache is empty after construction, every operation on the
    element keeps a non-empty cache on one of the anchor pages ['/'] and
    ['/notifications'], and a [navigateTo] that leaves any other page does
    not write the cache. *)
Theorem C6_cache_invariant
        (URL_parse : string -> string -> option URL.t)
        (split_DRIVE_KEY_REGEX : string -> list string) :
  (forall w0, scrollPositionCache (exec constructor w0) = None)
  /\ (forall op w,
         cache_invariant w ->
         cache_invariant (exec (step URL_parse split_DRIVE_KEY_REGEX op) w))
  /\ (forall ops w0,
         cache_invariant
           (run URL_parse split_DRIVE_KEY_REGEX ops (exec constructor w0)))
  /\ (forall pathname w,
         currentPath w <> "/" -> currentPath w <> "/notifications" ->
         scrollPositionCache (exec (navigateTo pathname) w)
         = scrollPositionCache w).
Proof.
  split; [|split; [|split]].
  - intros w0. destruct w0; reflexivity.
  - intros op w. apply step_cache_invariant.
  - intros ops w0.
    assert (H : cache_invariant (exec constructor w0))
      by (destruct w0; exact I).
    revert H. generalize (exec constructor w0).
    induction ops as [|op ops IH]; intros w H; cbn [run]; [assumption|].
    apply IH. now apply step_cache_invariant.
  - intros p w H1 H2. rewrite navigateTo_cache.
    destruct (is_anchor_page (currentPath w)) eqn:E; [|reflexivity].
    apply is_anchor_page_true in E. tauto.
Qed.

Lemma C6_cache_invariant_witness :
  cache_invariant
    (exec (step sample_URL_parse sample_split (NavigateTo "/a@b")) sample_world)
  /\ scrollPositionCache
       (exec (navigateTo "/")
             (exec (navigateTo_at 250 "/a@b") sample_world))
     = scrollPositionCache (exec (navigateTo_at 250 "/a@b") sample_world).
Proof.
  destruct (C6_cache_invariant sample_URL_parse sample_split)
    as (_ & Hstep & _ & Hother).
  split.
  - apply Hstep. exact I.
  - apply Hother; discriminate.
Defined.

(** ** Loading *)

(** C8. Whatever the outcome of the session bootstrap, normal or a thrown
    failure, [load] sets [isLoading] to false in its [finally] block, and
    its own completion is that outcome: a failure of the bootstrap is
    thrown on by [load], not caught. *)
Theorem C8_load_always_leaves_loading (setup : Completion unit) (w : World) :
  isLoading (exec (load setup) w) = false
  /\ effects (load setup) w = [SetIsLoading false]
  /\ completion (load setup) w = setup
  /\ (forall e, setup = Throw e -> completion (load setup) w = Throw e).
Proof.
  unfold exec, completion, effects, exec. rewrite load_run.
  cbn [fst snd]. repeat split.
  - destruct w; cbn. apply skipn_length_app.
  - intros e ->. reflexivity.
Qed.

Lemma C8_load_always_leaves_loading_witness :
  let w := with_isLoading true sample_world in
  isLoading (exec (load (Throw (Rejection "no session"))) w) = false
  /\ completion (load (Throw (Rejection "no session"))) w
     = Throw (Rejection "no session").
Proof.
  intros w.
  destruct (C8_load_always_leaves_loading
              (Throw (Rejection "no session")) w) as (H1 & _ & _ & H4).
  split; [exact H1 | apply H4; reflexivity].
Defined.

(** Once loading is over, no operation brings it back. *)
Lemma isLoading_one_way
      (URL_parse : string -> string -> option URL.t)
      (split_DRIVE_KEY_REGEX : string -> list string)
      (op : Operation) (w : World) :
  isLoading w = false ->
  isLoading (exec (step URL_parse split_DRIVE_KEY_REGEX op) w) = false.
Proof.
  intros H. destruct op as [setup|p|e|subject|url|loc state|y]; cbn [step];
    unfold exec, onViewThread, onNavigateTo.
  - now rewrite load_run.
  - now rewrite navigateTo_run.
  - destruct (onGlobalClick_cases URL_parse e w) as [E|[E|[p E]]];
      rewrite E; try assumption.
    now rewrite navigateTo_run.
  - now rewrite navigateTo_run.
  - now rewrite navigateTo_run.
  - unfold bind, modify. now rewrite onHistoryPopstate_run.
  - exact H.
Qed.

(** ** Back and forward *)

(** C7. For every popstate event, whatever its state, the handler first
    broadcasts [close-all-popups], then sets [currentPath] from the
    location, and schedules a scroll restoration only when the state has a
    scroll offset other than zero, to that offset. *)
Theorem C7_popstate_always_dismisses_and_updates
        (state : HistoryState) (w : World) :
  exists scheduled,
    effects (onHistoryPopstate state) w
    = (Emit "close-all-popups" :: SetCurrentPath (location_pathname w)
         :: scheduled)
    /\ currentPath (exec (onHistoryPopstate state) w) = location_pathname w
    /\ (forall y, In (ScrollToAfterLoad y) scheduled ->
                  state = state_object (Some y) /\ y <> 0%Z)
    /\ (forall y, state = state_object (Some y) -> y <> 0%Z ->
                  scheduled = [ScrollToAfterLoad y]).
Proof.
  exists (match state with
          | state_object (Some n) =>
              if (n =? 0)%Z then [] else [ScrollToAfterLoad n]
          | _ => []
          end).
  split; [|split; [|split]].
  - apply effects_of_trace. unfold exec. now rewrite onHistoryPopstate_run.
  - unfold exec. now rewrite onHistoryPopstate_run.
  - intros y Hy. destruct state as [|[n|]]; try contradiction.
    destruct (Z.eqb_spec n 0) as [E|E]; [contradiction|].
    destruct Hy as [[= ->]|[]]. now split.
  - intros y -> Hy. now destruct (Z.eqb_spec y 0).
Qed.

(** C10. For every popstate event whose state is [null], the handler
    throws a TypeError at the read of [e.state.scrollY], after it has
    broadcast [close-all-popups] and set [currentPath] from the location;
    nothing catches it: the operation that delivers the event completes
    by that throw. *)
Theorem C10_popstate_null_state_throws
        (URL_parse : string -> string -> option URL.t)
        (split_DRIVE_KEY_REGEX : string -> list string)
        (location : string) (w : World) :
  completion (onHistoryPopstate state_null) w = Throw TypeError
  /\ effects (onHistoryPopstate state_null) w
     = [Emit "close-all-popups"; SetCurrentPath (location_pathname w)]
  /\ currentPath (exec (onHistoryPopstate state_null) w) = location_pathname w
  /\ completion
       (step URL_parse split_DRIVE_KEY_REGEX
             (HistoryPopstate location state_null)) w
     = Throw TypeError
  /\ currentPath
       (exec (step URL_parse split_DRIVE_KEY_REGEX
                   (HistoryPopstate location state_null)) w)
     = location.
Proof.
  split; [|split; [|split; [|split]]].
  - unfold completion. now rewrite onHistoryPopstate_run.
  - apply effects_of_trace. unfold exec. now rewrite onHistoryPopstate_run.
  - unfold exec. now rewrite onHistoryPopstate_run.
  - unfold completion. cbn [step]. unfold bind, modify.
    now rewrite onHistoryPopstate_run.
  - unfold exec. cbn [step]. unfold bind, modify.
    rewrite onHistoryPopstate_run. now destruct w.
Qed.

(** ** Clicks *)

Lemma find_app {A : Type} (f : A -> bool) (l l' : list A) :
  find f (l ++ l') = match find f l with
                     | Some a => Some a
                     | None => find f l'
                     end.
Proof.
  induction l as [|x l IH]; cbn; [reflexivity|].
  now destruct (f x).
Qed.

Lemma findAnchor_fold (path : list Node) (acc : option Node) :
  fold_left (fun anchor el => if is_A el then Some el else anchor) path acc
  = match find is_A (rev path) with
    | Some a => Some a
    | None => acc
    end.
Proof.
  revert acc. induction path as [|x path IH]; intros acc; cbn; [reflexivity|].
  rewrite IH, find_app. cbn.
  destruct (find is_A (rev path)); [reflexivity|].
  now destruct (is_A x).
Qed.

(** The loop keeps the anchor nearest to the end of the path. *)
Lemma findAnchor_last (path : list Node) :
  findAnchor path = nearestAnchor (rev path).
Proof.
  unfold findAnchor, nearestAnchor. rewrite findAnchor_fold.
  now destruct (find is_A (rev path)).
Qed.

Lemma find_none_filter {A : Type} (f : A -> bool) (l : list A) :
  find f l = None -> filter f l = [].
Proof.
  induction l as [|x l IH]; cbn; [reflexivity|].
  destruct (f x); [discriminate | exact IH].
Qed.

Lemma find_rev_single {A : Type} (f : A -> bool) (l : list A) :
  (List.length (filter f l) <= 1)%nat -> find f (rev l) = find f l.
Proof.
  induction l as [|x l IH]; cbn; [reflexivity|].
  rewrite find_app. cbn. destruct (f x) eqn:E; cbn; intros H.
  - assert (N : filter f l = []) by (destruct (filter f l); [reflexivity | cbn in H; lia]).
    assert (R : find f (rev l) = None).
    { destruct (find f (rev l)) as [a|] eqn:F; [|reflexivity].
      apply find_some in F as [Hin Ha]. apply in_rev in Hin.
      assert (In a (filter f l)) by (apply filter_In; now split).
      rewrite N in *. contradiction. }
    now rewrite R.
  - rewrite (IH H). now destruct (find f l).
Qed.

(** C4, as stated, fails: the loop does not stop at the first anchor, so
    with an anchor inside another one the outer anchor is kept, and a
    click inside the inner one navigates to the target of the outer one. *)
Lemma C4_nearest_anchor_counterexample :
  let path := [anchor_to "/inner"; element "SPAN"; anchor_to "/outer";
               element "BODY"] in
  let e := {| defaultPrevented := false; composedPath := path |} in
  nearestAnchor path = Some (anchor_to "/inner")
  /\ findAnchor path = Some (anchor_to "/outer")
  /\ findAnchor path <> nearestAnchor path
  /\ currentPath (exec (onGlobalClick sample_URL_parse e) sample_world)
     = "/outer".
Proof. repeat split; discriminate. Qed.

Lemma fold_anchor_none (post : list Node) (acc : option Node) :
  nearestAnchor post = None ->
  fold_left (fun anchor el => if is_A el then Some el else anchor) post acc
  = acc.
Proof.
  unfold nearestAnchor. revert acc.
  induction post as [|x post IH]; intros acc; cbn; [reflexivity|].
  destruct (is_A x); [discriminate | apply IH].
Qed.

(** An anchor followed by no other anchor is the one kept. *)
Lemma findAnchor_after (pre post : list Node) (a : Node) :
  is_A a = true -> nearestAnchor post = None ->
  findAnchor (pre ++ a :: post) = Some a.
Proof.
  intros Ha Hpost. unfold findAnchor.
  rewrite fold_left_app. cbn [fold_left]. rewrite Ha.
  now apply fold_anchor_none.
Qed.

(** C4 (amended). For every composed path, the click interceptor keeps
    the last anchor of the path, the one farthest from the event target:
    a click that is not yet prevented is handled as a click on that anchor
    alone, whatever precedes it in the path. The anchor kept is the
    nearest enclosing anchor when the path has at most one anchor. If the
    path contains no anchor, the event is left untouched. *)
Theorem C4_last_anchor_selected (path : list Node) :
  findAnchor path = nearestAnchor (rev path)
  /\ (forall pre a post URL_parse w,
         path = (pre ++ a :: post)%list ->
         is_A a = true -> nearestAnchor post = None ->
         findAnchor path = Some a
         /\ onGlobalClick URL_parse
              {| defaultPrevented := false; composedPath := path |} w
            = onGlobalClick URL_parse
                {| defaultPrevented := false; composedPath := [a] |} w)
  /\ ((List.length (filter is_A path) <= 1)%nat ->
      findAnchor path = nearestAnchor path)
  /\ (nearestAnchor path = None ->
      forall URL_parse prevented w,
        onGlobalClick URL_parse
          {| defaultPrevented := prevented; composedPath := path |} w
        = (Normal tt, w)).
Proof.
  split; [apply findAnchor_last|]. split; [|split].
  - intros pre a post URL_parse w -> Ha Hpost.
    assert (E : findAnchor (pre ++ a :: post) = Some a)
      by now apply findAnchor_after.
    split; [exact E|].
    assert (E1 : findAnchor [a] = Some a)
      by now apply (findAnchor_after [] []).
    unfold onGlobalClick. cbn [defaultPrevented composedPath].
    now rewrite E, E1.
  - intros H. rewrite findAnchor_last. unfold nearestAnchor.
    now apply find_rev_single.
  - intros H URL_parse prevented w. unfold onGlobalClick.
    cbn [defaultPrevented composedPath].
    destruct prevented; [reflexivity|].
    rewrite findAnchor_last. unfold nearestAnchor in *.
    rewrite find_rev_single; [now rewrite H|].
    rewrite (find_none_filter _ _ H). cbn. lia.
Qed.

Lemma C4_last_anchor_selected_witness :
  findAnchor [anchor_to "/inner"; element "SPAN"; anchor_to "/outer";
              element "BODY"]
  = Some (anchor_to "/outer")
  /\ findAnchor [element "SPAN"; anchor_to "/a@b"; element "BODY"]
     = nearestAnchor [element "SPAN"; anchor_to "/a@b"; element "BODY"]
  /\ onGlobalClick sample_URL_parse
       {| defaultPrevented := false;
          composedPath := [element "SPAN"; element "BODY"] |} sample_world
     = (Normal tt, sample_world).
Proof.
  split; [|split].
  - destruct (C4_last_anchor_selected
                [anchor_to "/inner"; element "SPAN"; anchor_to "/outer";
                 element "BODY"]) as (_ & H & _).
    apply (H [anchor_to "/inner"; element "SPAN"] (anchor_to "/outer")
             [element "BODY"] sample_URL_parse sample_world);
      reflexivity.
  - destruct (C4_last_anchor_selected
                [element "SPAN"; anchor_to "/a@b"; element "BODY"])
      as (_ & _ & H & _).
    apply H. cbn. lia.
  - destruct (C4_last_anchor_selected [element "SPAN"; element "BODY"])
      as (_ & _ & _ & H).
    apply H. reflexivity.
Defined.

(** C5. For every click that is not yet prevented, on an anchor with an
    href that resolves to a URL: if the origin of the URL is not that of
    the document, the handler does nothing at all (no [preventDefault],
    no [navigateTo]); if it is, the handler prevents the default and then
    calls [navigateTo] with the pathname of the URL. *)
Theorem C5_same_origin_only
        (URL_parse : string -> string -> option URL.t)
        (e : MouseEvent) (w : World) (anchor : Node) (h : string)
        (url : URL.t) :
  defaultPrevented e = false ->
  findAnchor (composedPath e) = Some anchor ->
  href anchor = Some h ->
  URL_parse h (location_origin w) = Some url ->
  (URL.origin url <> location_origin w ->
   onGlobalClick URL_parse e w = (Normal tt, w)
   /\ effects (onGlobalClick URL_parse e) w = [])
  /\ (URL.origin url = location_origin w ->
      onGlobalClick URL_parse e w
      = navigateTo (URL.pathname url)
                   (with_trace (trace w ++ [PreventDefault]) w)
      /\ (exists rest,
             effects (onGlobalClick URL_parse e) w = PreventDefault :: rest)).
Proof.
  intros Hp Ha Hh Hu.
  assert (E : onGlobalClick URL_parse e w
              = if URL.origin url =? location_origin w
                then navigateTo (URL.pathname url)
                       (with_trace (trace w ++ [PreventDefault]) w)
                else (Normal tt, w)).
  { unfold onGlobalClick. rewrite Hp, Ha, Hh. cbv [bind gets].
    rewrite Hu. now destruct (URL.origin url =? location_origin w). }
  split; intros Ho.
  - apply String.eqb_neq in Ho. rewrite Ho in E. split; [exact E|].
    unfold effects, exec. rewrite E. cbn [snd].
    rewrite <- (app_nil_r (trace w)) at 2. apply skipn_length_app.
  - apply String.eqb_eq in Ho. rewrite Ho in E. split; [exact E|].
    eexists. apply effects_of_trace. unfold exec.
    rewrite E, navigateTo_run. cbn [snd trace with_trace window_scrollY].
    rewrite <- app_assoc. reflexivity.
Qed.

Lemma C5_same_origin_only_witness :
  let click h :=
    {| defaultPrevented := false;
       composedPath := [element "SPAN"; anchor_to h; element "BODY"] |} in
  onGlobalClick sample_URL_parse (click "https://elsewhere.example/x")
                sample_world
  = (Normal tt, sample_world)
  /\ onGlobalClick sample_URL_parse (click "/a@b") sample_world
     = navigateTo "/a@b"
         (with_trace (trace sample_world ++ [PreventDefault]) sample_world).
Proof.
  intros click. split.
  - apply (C5_same_origin_only sample_URL_parse
             (click "https://elsewhere.example/x") sample_world
             (anchor_to "https://elsewhere.example/x")
             "https://elsewhere.example/x"
             (URL.mk "https://elsewhere.example" "/x"));
      solve [reflexivity | discriminate].
  - apply (C5_same_origin_only sample_URL_parse (click "/a@b") sample_world
             (anchor_to "/a@b") "/a@b"
             (URL.mk "https://ctzn.example" "/a@b"));
      reflexivity.
Defined.

(** The state stamped by a [navigateTo] made at offset 250 brings the
    scroll back when its entry is reactivated. *)
Lemma C7_popstate_always_dismisses_and_updates_witness :
  effects (onHistoryPopstate (state_object (Some 250%Z))) sample_world
  = [Emit "close-all-popups"; SetCurrentPath "/notifications";
     ScrollToAfterLoad 250].
Proof.
  destruct (C7_popstate_always_dismisses_and_updates
              (state_object (Some 250%Z)) sample_world)
    as (scheduled & E & _ & _ & H).
  rewrite E, (H 250%Z eq_refl); [reflexivity | discriminate].
Defined.

(** * Further properties of the code *)

(** ** The patterns and the resolver *)

Lemma string_app_assoc (a b c : string) : (a ++ b) ++ c = a ++ (b ++ c).
Proof. induction a as [|x a IH]; cbn; [reflexivity | now rewrite IH]. Qed.

Lemma accepts_lit_slash (i : bool) (x : ascii) :
  RegExp.accepts i (RegExp.Lit "/") x = Ascii.eqb x "/".
Proof.
  destruct i; [|reflexivity].
  destruct x as [[] [] [] [] [] [] [] []]; reflexivity.
Qed.

Lemma has_address_segment_contains_at (path : string) :
  has_address_segment path -> contains "@" path = true.
Proof.
  intros (pre & u & c & rest & -> & _).
  rewrite contains_app. cbn [append contains]. rewrite contains_app.
  cbn [append contains]. rewrite Ascii.eqb_refl. cbn [orb].
  now rewrite !orb_true_r.
Qed.

(** Whatever follows the address token in a pattern, a match starts with
    an address segment. *)
Lemma slash_token_match_segment (i : bool) (k : list RegExp.Term)
      (suf : string) :
  RegExp.match_here i (RegExp.chars "/" ++ address_token ++ k) suf = true ->
  exists u c rest,
    suf = "/" ++ u ++ "@" ++ String c rest
    /\ u <> EmptyString /\ slash_free u /\ c <> "/"%char.
Proof.
  intros H. destruct suf as [|x suf]; [discriminate|].
  cbn [RegExp.chars app] in H. rewrite match_here_One, accepts_lit_slash in H.
  apply andb_true_iff in H as [Hx H]. apply Ascii.eqb_eq in Hx. subst x.
  apply address_token_spec in H
    as (u & v & rest & -> & Hu & Hau & Hv & Hav & _).
  destruct v as [|c v]; [congruence|].
  exists u, c, (v ++ rest).
  unfold slash_free in Hav. cbn [all_chars] in Hav.
  apply andb_true_iff in Hav as [Hc _]. apply not_slash_true in Hc.
  repeat split; assumption.
Qed.

Lemma slash_token_test_segment (i : bool) (k : list RegExp.Term)
      (path : string) :
  RegExp.search i (RegExp.chars "/" ++ address_token ++ k) path = true ->
  has_address_segment path.
Proof.
  intros H. apply search_spec in H as (pre & suf & -> & H).
  apply slash_token_match_segment in H as (u & c & rest & -> & H).
  now exists pre, u, c, rest.
Qed.

Lemma thread_test_profile_test (path : string) :
  RegExp.test POST_PATH_REGEX path = true
  \/ RegExp.test COMMENT_PATH_REGEX path = true ->
  RegExp.test USER_PATH_REGEX path = true.
Proof.
  intros [H | H]; apply test_USER_PATH_REGEX;
    exact (slash_token_test_segment true _ path H).
Qed.

Lemma pattern_test_contains_at (path : string) :
  RegExp.test POST_PATH_REGEX path = true
  \/ RegExp.test COMMENT_PATH_REGEX path = true
  \/ RegExp.test USER_PATH_REGEX path = true ->
  contains "@" path = true.
Proof.
  intros H. apply has_address_segment_contains_at, test_USER_PATH_REGEX.
  destruct H as [H | [H | H]]; [| | exact H];
    apply thread_test_profile_test; tauto.
Qed.

(** The views of the [switch] carry no path. *)
Lemma top_level_view (path : string) (v : View) :
  top_level path = Some v ->
  v <> NotFound404 /\ v <> Spinner
  /\ (forall p, v <> ctzn_post_view p) /\ (forall p, v <> ctzn_user_view p).
Proof.
  unfold top_level.
  repeat match goal with
         | |- context [String.eqb path ?l] => destruct (String.eqb path l)
         end;
    intros [= <-]; repeat split; try discriminate; intros p; discriminate.
Qed.

Lemma literal_variant_match (lit v : string) (k : list RegExp.Term)
      (s : string) :
  literal_variant lit v = true ->
  RegExp.match_here true (RegExp.chars lit ++ k) (v ++ s)
  = RegExp.match_here true k s.
Proof.
  revert v. induction lit as [|a lit IH]; intros [|b v] H;
    try discriminate; [reflexivity|].
  cbn [literal_variant] in H. apply andb_true_iff in H as [Hb H].
  rewrite chars_cons. cbn [app append]. rewrite match_here_One, (IH v H).
  destruct (Ascii.eqb a "."); cbn [RegExp.accepts]; now rewrite Hb.
Qed.

Lemma thread_pattern_matches_variant (lit pre u h v rest : string) (c : ascii) :
  literal_variant lit v = true ->
  u <> EmptyString -> slash_free u -> h <> EmptyString -> slash_free h ->
  c <> "/"%char ->
  RegExp.search true
    (RegExp.chars "/" ++ address_token ++ RegExp.chars lit
       ++ [RegExp.Plus (RegExp.Not "/")])%list
    (pre ++ "/" ++ u ++ "@" ++ h ++ v ++ String c rest) = true.
Proof.
  intros Hv Hu Hau Hh Hah Hc.
  apply search_spec.
  exists pre, ("/" ++ u ++ "@" ++ h ++ v ++ String c rest).
  split; [reflexivity|].
  rewrite match_here_chars.
  apply address_token_spec. exists u, h, (v ++ String c rest).
  repeat split; try assumption.
  rewrite (literal_variant_match _ _ _ _ Hv), match_here_Plus.
  cbn [RegExp.repeat_plus].
  rewrite accepts_not_slash. apply not_slash_true in Hc. rewrite Hc.
  cbn [RegExp.match_here andb]. apply orb_true_r.
Qed.

Lemma resolve_thread_general (lit pre u h v rest : string) (c : ascii) :
  lit = "/ctzn.network/post/" \/ lit = "/ctzn.network/comment/" ->
  literal_variant lit v = true ->
  u <> EmptyString -> slash_free u -> h <> EmptyString -> slash_free h ->
  c <> "/"%char ->
  resolve (pre ++ "/" ++ u ++ "@" ++ h ++ v ++ String c rest)
  = ctzn_post_view (pre ++ "/" ++ u ++ "@" ++ h ++ v ++ String c rest).
Proof.
  intros Hlit Hv Hu Hau Hh Hah Hc.
  set (path := pre ++ "/" ++ u ++ "@" ++ h ++ v ++ String c rest).
  assert (T : RegExp.test POST_PATH_REGEX path = true
              \/ RegExp.test COMMENT_PATH_REGEX path = true).
  { destruct Hlit as [-> | ->]; [left | right];
      now apply thread_pattern_matches_variant. }
  unfold resolve.
  rewrite (top_level_at path) by (apply pattern_test_contains_at; tauto).
  destruct T as [T | T]; rewrite T; [reflexivity|].
  now destruct (RegExp.test POST_PATH_REGEX path).
Qed.

(** X1. A path without ['@'] that is none of the nine exact paths of the
    [switch] is not found: a trailing slash, a query or another letter
    case is enough to miss a top-level page. *)
Theorem X1_no_at_not_found (path : string) :
  contains "@" path = false -> top_level path = None ->
  resolve path = NotFound404.
Proof.
  intros Hat Htop. unfold resolve. rewrite Htop.
  destruct (RegExp.test POST_PATH_REGEX path) eqn:P.
  { rewrite pattern_test_contains_at in Hat by tauto. discriminate. }
  destruct (RegExp.test COMMENT_PATH_REGEX path) eqn:C.
  { rewrite pattern_test_contains_at in Hat by tauto. discriminate. }
  destruct (RegExp.test USER_PATH_REGEX path) eqn:U.
  { rewrite pattern_test_contains_at in Hat by tauto. discriminate. }
  reflexivity.
Qed.

Lemma X1_no_at_not_found_witness : resolve "/notifications/" = NotFound404.
Proof. apply X1_no_at_not_found; reflexivity. Defined.

(** X2. Every path that a thread pattern matches is matched by the profile
    pattern as well: were the profile pattern tested first, no path would
    reach the thread view. *)
Theorem X2_thread_pattern_within_profile_pattern (path : string) :
  RegExp.test POST_PATH_REGEX path = true
  \/ RegExp.test COMMENT_PATH_REGEX path = true ->
  RegExp.test USER_PATH_REGEX path = true.
Proof.
  intros H. apply test_USER_PATH_REGEX.
  assert (S : exists k,
             RegExp.search true
               (RegExp.chars "/" ++ address_token ++ k)%list path = true).
  { destruct H as [H | H]; eexists; exact H. }
  destruct S as (k & S).
  apply search_spec in S as (pre & suf & -> & M).
  apply slash_token_match_segment in M as (u & c & rest & -> & M).
  now exists pre, u, c, rest.
Qed.

Lemma X2_thread_pattern_within_profile_pattern_witness :
  RegExp.test USER_PATH_REGEX "/x/a@b/ctzn.network/comment/7" = true.
Proof.
  apply X2_thread_pattern_within_profile_pattern. right. reflexivity.
Defined.

(** X3. The thread patterns are neither anchored nor case-sensitive and
    their ['.'] is not escaped: a thread-shaped piece resolves to the
    thread view after any prefix, before any suffix, with the fixed
    segment in any letter case and with any character but a line
    terminator in place of the dot. *)
Theorem X3_thread_pattern_is_loose (lit pre u h v rest : string) (c : ascii) :
  lit = "/ctzn.network/post/" \/ lit = "/ctzn.network/comment/" ->
  literal_variant lit v = true ->
  u <> EmptyString -> slash_free u -> h <> EmptyString -> slash_free h ->
  c <> "/"%char ->
  resolve (pre ++ "/" ++ u ++ "@" ++ h ++ v ++ String c rest)
  = ctzn_post_view (pre ++ "/" ++ u ++ "@" ++ h ++ v ++ String c rest).
Proof.
  intros Hlit Hv Hu Hau Hh Hah Hc.
  set (path := pre ++ "/" ++ u ++ "@" ++ h ++ v ++ String c rest).
  assert (Hat : contains "@" path = true).
  { unfold path. rewrite contains_app. cbn [append contains].
    rewrite contains_app. cbn [contains]. rewrite Ascii.eqb_refl.
    cbn [orb]. now rewrite !orb_true_r. }
  unfold resolve. rewrite (top_level_at path Hat).
  destruct Hlit as [-> | ->].
  - assert (T : RegExp.test POST_PATH_REGEX path = true)
      by now apply thread_pattern_matches_variant.
    now rewrite T.
  - assert (T : RegExp.test COMMENT_PATH_REGEX path = true)
      by now apply thread_pattern_matches_variant.
    rewrite T. now destruct (RegExp.test POST_PATH_REGEX path).
Qed.

Lemma X3_thread_pattern_is_loose_witness :
  resolve "/about/a@b/CTZN-Network/Post/1/edit"
  = ctzn_post_view "/about/a@b/CTZN-Network/Post/1/edit".
Proof.
  apply (X3_thread_pattern_is_loose "/ctzn.network/post/" "/about" "a" "b"
           "/CTZN-Network/Post/" "/edit" "1"%char);
    solve [reflexivity | discriminate | left; reflexivity].
Defined.

(** X4. The resolver, read from its result: the thread view is returned
    exactly for the paths a thread pattern matches, the profile view
    exactly for those only the profile pattern matches, and the not-found
    view exactly for those that are no top-level path and that the profile
    pattern does not match; a path with an exact top-level page never
    reaches the patterns. *)
Theorem X4_resolver_classification (path : string) :
  (resolve path = ctzn_post_view path
   <-> RegExp.test POST_PATH_REGEX path = true
       \/ RegExp.test COMMENT_PATH_REGEX path = true)
  /\ (resolve path = ctzn_user_view path
      <-> RegExp.test USER_PATH_REGEX path = true
          /\ RegExp.test POST_PATH_REGEX path = false
          /\ RegExp.test COMMENT_PATH_REGEX path = false)
  /\ (resolve path = NotFound404
      <-> top_level path = None /\ RegExp.test USER_PATH_REGEX path = false)
  /\ (forall v, top_level path = Some v ->
                resolve path = v
                /\ RegExp.test USER_PATH_REGEX path = false).
Proof.
  assert (Hno : forall v, top_level path = Some v ->
                          RegExp.test POST_PATH_REGEX path = false
                          /\ RegExp.test COMMENT_PATH_REGEX path = false
                          /\ RegExp.test USER_PATH_REGEX path = false).
  { intros v Hv. apply top_level_no_at in Hv.
    repeat split.
    - destruct (RegExp.test POST_PATH_REGEX path) eqn:E; [|reflexivity].
      rewrite pattern_test_contains_at in Hv by tauto. discriminate.
    - destruct (RegExp.test COMMENT_PATH_REGEX path) eqn:E; [|reflexivity].
      rewrite pattern_test_contains_at in Hv by tauto. discriminate.
    - destruct (RegExp.test USER_PATH_REGEX path) eqn:E; [|reflexivity].
      rewrite pattern_test_contains_at in Hv by tauto. discriminate. }
  assert (Hpu : RegExp.test USER_PATH_REGEX path = false ->
                RegExp.test POST_PATH_REGEX path = false
                /\ RegExp.test COMMENT_PATH_REGEX path = false).
  { intros U.
    destruct (RegExp.test POST_PATH_REGEX path) eqn:P.
    { rewrite thread_test_profile_test in U by tauto. discriminate. }
    destruct (RegExp.test COMMENT_PATH_REGEX path) eqn:C.
    { rewrite thread_test_profile_test in U by tauto. discriminate. }
    now split. }
  unfold resolve.
  destruct (top_level path) as [v|] eqn:Htop.
  - destruct (Hno v eq_refl) as (P & C & U).
    destruct (top_level_view path v Htop) as (N1 & N2 & N3 & N4).
    rewrite P, C, U. split; [|split; [|split]].
    + split; [intros E; now contradiction (N3 path)|].
      intros [E | E]; discriminate.
    + split; [intros E; now contradiction (N4 path)|].
      intros [E _]; discriminate.
    + split; [intros E; now contradiction N1|].
      intros [E _]; discriminate.
    + intros v' [= <-]. now split.
  - destruct (RegExp.test POST_PATH_REGEX path) eqn:P;
      [|destruct (RegExp.test COMMENT_PATH_REGEX path) eqn:C;
        [|destruct (RegExp.test USER_PATH_REGEX path) eqn:U]].
    + split; [|split; [|split]]; [tauto | | | discriminate].
      * split; [discriminate | intros (_ & E & _); discriminate].
      * split; [discriminate|]. intros [_ U].
        rewrite thread_test_profile_test in U by tauto. discriminate.
    + split; [|split; [|split]]; [tauto | | | discriminate].
      * split; [discriminate | intros (_ & _ & E); discriminate].
      * split; [discriminate|]. intros [_ U].
        rewrite thread_test_profile_test in U by tauto. discriminate.
    + split; [|split; [|split]]; [ | tauto | | discriminate].
      * split; [discriminate | intros [E | E]; discriminate].
      * split; [discriminate | intros [_ E]; discriminate].
    + split; [|split; [|split]]; [ | | tauto | discriminate].
      * split; [discriminate | intros [E | E]; discriminate].
      * split; [discriminate | intros (E & _); discriminate].
Qed.

Lemma X4_resolver_classification_witness :
  resolve "/search" = ctzn_search_view
  /\ RegExp.test USER_PATH_REGEX "/search" = false.
Proof.
  destruct (X4_resolver_classification "/search") as (_ & _ & _ & H).
  apply H. reflexivity.
Defined.

(** ** Navigation and the single cache slot *)

Lemma navigateTo_at_effects (y : Z) (p : string) (w : World) :
  effects (navigateTo_at y p) w
  = effects (navigateTo p) (with_window_scrollY y w).
Proof. reflexivity. Qed.

Lemma navigateTo_at_restorations (y : Z) (p : string) (w : World) :
  scroll_restorations (effects (navigateTo_at y p) w) =
  match tryConsume (scrollPositionCache w) p with
  | Some y' => [y']
  | None => []
  end.
Proof.
  rewrite navigateTo_at_effects, navigateTo_scroll_restorations.
  reflexivity.
Qed.

Lemma navigateTo_at_cache (y : Z) (p : string) (w : World) :
  scrollPositionCache (exec (navigateTo_at y p) w) =
  if is_anchor_page (currentPath w)
  then Some (ScrollPosition.mk (currentPath w) y)
  else scrollPositionCache w.
Proof.
  change (exec (navigateTo_at y p) w)
    with (exec (navigateTo p) (with_window_scrollY y w)).
  rewrite navigateTo_cache. reflexivity.
Qed.

Lemma navigateTo_at_currentPath (y : Z) (p : string) (w : World) :
  currentPath (exec (navigateTo_at y p) w) = p.
Proof.
  change (exec (navigateTo_at y p) w)
    with (exec (navigateTo p) (with_window_scrollY y w)).
  apply navigateTo_currentPath.
Qed.

Lemma tryConsume_same (a : string) (y : Z) :
  tryConsume (Some (ScrollPosition.mk a y)) a = Some y.
Proof. unfold tryConsume. cbn. now rewrite String.eqb_refl. Qed.

(** X6. Return to where you were: when an anchor page is left at the
    offset [y], for whatever path, and the next navigation goes back to
    that anchor page, one scroll restoration is scheduled, to [y]. *)
Theorem X6_return_to_anchor_page (w : World) (q : string) (y y' : Z) :
  is_anchor_page (currentPath w) = true ->
  scroll_restorations
    (effects (navigateTo_at y' (currentPath w))
             (exec (navigateTo_at y q) w))
  = [y].
Proof.
  intros Ha.
  now rewrite navigateTo_at_restorations, navigateTo_at_cache, Ha,
    tryConsume_same.
Qed.

Lemma X6_return_to_anchor_page_witness :
  scroll_restorations
    (effects (navigateTo_at 0 "/notifications")
             (exec (navigateTo_at 640 "/a@b") sample_world))
  = [640%Z].
Proof. apply (X6_return_to_anchor_page sample_world "/a@b" 640 0). reflexivity. Defined.

(** X8. There is one slot for both anchor pages: when an anchor page is
    left for the other one, and that one is left in turn, a navigation
    back to the first anchor page restores nothing. *)
Theorem X8_other_anchor_page_takes_the_slot
        (w : World) (b x : string) (y y2 y3 : Z) :
  is_anchor_page (currentPath w) = true ->
  is_anchor_page b = true ->
  b <> currentPath w ->
  scroll_restorations
    (effects (navigateTo_at y3 (currentPath w))
             (exec (navigateTo_at y2 x) (exec (navigateTo_at y b) w)))
  = [].
Proof.
  intros Ha Hb Hne.
  rewrite navigateTo_at_restorations, navigateTo_at_cache,
    navigateTo_at_currentPath, Hb.
  apply String.eqb_neq in Hne.
  unfold tryConsume. cbn. now rewrite Hne.
Qed.

Lemma X8_other_anchor_page_takes_the_slot_witness :
  scroll_restorations
    (effects (navigateTo_at 0 "/notifications")
             (exec (navigateTo_at 30 "/search")
                   (exec (navigateTo_at 640 "/") sample_world)))
  = [].
Proof.
  apply (X8_other_anchor_page_takes_the_slot sample_world "/" "/search"
           640 30 0); solve [reflexivity | discriminate].
Defined.

Section CheckedNavigation.

Variable pushState_resolve : string -> string -> option string.

Lemma navigateTo_checked_accepted (p p' : string) (w : World) :
  pushState_resolve (location_pathname w) p = Some p' ->
  navigateTo_checked pushState_resolve p w =
  (Normal tt,
   with_trace
     (trace w
      ++ [ReplaceState (state_object (Some (window_scrollY w)));
          PushState (state_object None) p;
          SetCurrentPath p]
      ++ match tryConsume (scrollPositionCache w) p with
         | Some y => [ScrollToAfterLoad y]
         | None => []
         end)%list
     (with_currentPath p (with_location_pathname p' (before_pushState w)))).
Proof.
  intros H. destruct w as [cur ld cache y o loc r tr]. cbn in H.
  cbv [navigateTo_checked bind gets when modify ret history_replaceState
       history_pushState_checked set_currentPath scrollToAfterLoad log
       before_pushState
       with_currentPath with_scrollPositionCache with_scrollRestoration
       with_location_pathname with_trace
       currentPath scrollPositionCache history_scrollRestoration
       window_scrollY isLoading location_origin location_pathname trace].
  destruct r, (is_anchor_page cur), (tryConsume cache p);
    cbv beta iota; rewrite H; cbv beta iota;
    repeat rewrite <- app_assoc; reflexivity.
Qed.

Lemma navigateTo_checked_refused (p : string) (w : World) :
  pushState_resolve (location_pathname w) p = None ->
  navigateTo_checked pushState_resolve p w = (Throw SecurityError, before_pushState w).
Proof.
  intros H. destruct w as [cur ld cache y o loc r tr]. cbn in H.
  cbv [navigateTo_checked bind gets when modify ret history_replaceState
       history_pushState_checked set_currentPath scrollToAfterLoad log
       throw before_pushState
       with_currentPath with_scrollPositionCache with_scrollRestoration
       with_location_pathname with_trace
       currentPath scrollPositionCache history_scrollRestoration
       window_scrollY isLoading location_origin location_pathname trace].
  destruct r, (is_anchor_page cur);
    cbv beta iota; rewrite H; reflexivity.
Qed.

(** [navigateTo] is [navigateTo_checked] where the browser accepts the
    path and reads it back as it is. *)
Lemma navigateTo_checked_plain (p : string) (w : World) :
  pushState_resolve (location_pathname w) p = Some p ->
  navigateTo_checked pushState_resolve p w = navigateTo p w.
Proof.
  intros H. rewrite (navigateTo_checked_accepted p p w H), navigateTo_run.
  destruct w; reflexivity.
Qed.

Lemma navigateTo_checked_cache (p : string) (w : World) :
  scrollPositionCache (exec (navigateTo_checked pushState_resolve p) w) =
  if is_anchor_page (currentPath w)
  then Some (ScrollPosition.mk (currentPath w) (window_scrollY w))
  else scrollPositionCache w.
Proof.
  unfold exec.
  destruct (pushState_resolve (location_pathname w) p) as [p'|] eqn:E.
  - now rewrite (navigateTo_checked_accepted p p' w E).
  - now rewrite (navigateTo_checked_refused p w E).
Qed.

Lemma navigateTo_checked_currentPath (p : string) (w : World) :
  currentPath (exec (navigateTo_checked pushState_resolve p) w) =
  match pushState_resolve (location_pathname w) p with
  | Some _ => p
  | None => currentPath w
  end.
Proof.
  unfold exec.
  destruct (pushState_resolve (location_pathname w) p) as [p'|] eqn:E.
  - now rewrite (navigateTo_checked_accepted p p' w E).
  - now rewrite (navigateTo_checked_refused p w E).
Qed.

Lemma navigateTo_checked_restorations (p p' : string) (w : World) :
  pushState_resolve (location_pathname w) p = Some p' ->
  scroll_restorations (effects (navigateTo_checked pushState_resolve p) w) =
  match tryConsume (scrollPositionCache w) p with
  | Some y => [y]
  | None => []
  end.
Proof.
  intros E.
  rewrite (effects_of_trace (navigateTo_checked pushState_resolve p) w
             ([ReplaceState (state_object (Some (window_scrollY w)));
               PushState (state_object None) p; SetCurrentPath p]
              ++ match tryConsume (scrollPositionCache w) p with
                 | Some y => [ScrollToAfterLoad y]
                 | None => []
                 end)%list).
  - now destruct (tryConsume (scrollPositionCache w) p).
  - unfold exec. now rewrite (navigateTo_checked_accepted p p' w E).
Qed.

(** X5. The two outcomes of [navigateTo]. When the browser accepts the
    string given to [pushState], the call completes normally, the history
    has been written twice (the entry being left stamped with the scroll
    offset of the moment, then the new entry pushed with an empty state),
    the current path is the string as given and the location has the
    pathname the browser resolved it to. When the browser refuses it, the
    call completes by the SecurityError of [pushState]: the entry being
    left has been stamped all the same, but the current path and the
    location are as before and no scroll is scheduled. In both outcomes
    the position of an anchor page being left has been captured,
    [history.scrollRestoration] is ['manual'] if the browser has the
    property, and the loading flag is as before. *)
Theorem X5_navigateTo_outcomes (pathname : string) (w : World) :
  (forall p, pushState_resolve (location_pathname w) pathname = Some p ->
     completion (navigateTo_checked pushState_resolve pathname) w = Normal tt
     /\ filter is_history_write (effects (navigateTo_checked pushState_resolve pathname) w)
        = [ReplaceState (state_object (Some (window_scrollY w)));
           PushState (state_object None) pathname]
     /\ currentPath (exec (navigateTo_checked pushState_resolve pathname) w) = pathname
     /\ location_pathname (exec (navigateTo_checked pushState_resolve pathname) w) = p)
  /\ (pushState_resolve (location_pathname w) pathname = None ->
      completion (navigateTo_checked pushState_resolve pathname) w = Throw SecurityError
      /\ effects (navigateTo_checked pushState_resolve pathname) w
         = [ReplaceState (state_object (Some (window_scrollY w)))]
      /\ currentPath (exec (navigateTo_checked pushState_resolve pathname) w) = currentPath w
      /\ location_pathname (exec (navigateTo_checked pushState_resolve pathname) w)
         = location_pathname w)
  /\ scrollPositionCache (exec (navigateTo_checked pushState_resolve pathname) w)
     = (if is_anchor_page (currentPath w)
        then Some (ScrollPosition.mk (currentPath w) (window_scrollY w))
        else scrollPositionCache w)
  /\ history_scrollRestoration (exec (navigateTo_checked pushState_resolve pathname) w)
     = match history_scrollRestoration w with
       | Some _ => Some manual
       | None => None
       end
  /\ isLoading (exec (navigateTo_checked pushState_resolve pathname) w) = isLoading w.
Proof.
  split; [|split; [|split; [apply navigateTo_checked_cache|]]].
  - intros p E.
    assert (T : trace (exec (navigateTo_checked pushState_resolve pathname) w)
                = (trace w
                   ++ [ReplaceState (state_object (Some (window_scrollY w)));
                       PushState (state_object None) pathname;
                       SetCurrentPath pathname]
                   ++ match tryConsume (scrollPositionCache w) pathname with
                      | Some y => [ScrollToAfterLoad y]
                      | None => []
                      end)%list).
    { unfold exec. now rewrite (navigateTo_checked_accepted _ _ w E). }
    rewrite (effects_of_trace _ _ _ T). unfold completion, exec.
    rewrite (navigateTo_checked_accepted _ _ w E). cbn [fst snd].
    repeat split.
    now destruct (tryConsume (scrollPositionCache w) pathname).
  - intros E.
    assert (T : trace (exec (navigateTo_checked pushState_resolve pathname) w)
                = (trace w
                   ++ [ReplaceState
                         (state_object (Some (window_scrollY w)))])%list).
    { unfold exec. now rewrite (navigateTo_checked_refused _ w E). }
    rewrite (effects_of_trace _ _ _ T). unfold completion, exec.
    rewrite (navigateTo_checked_refused _ w E). repeat split.
  - unfold exec.
    destruct (pushState_resolve (location_pathname w) pathname)
      as [p|] eqn:E.
    + rewrite (navigateTo_checked_accepted _ _ w E). now split.
    + rewrite (navigateTo_checked_refused _ w E). now split.
Qed.

Lemma navigateTo_checked_at_cache (y : Z) (p : string) (w : World) :
  scrollPositionCache
    (exec (navigateTo_checked_at pushState_resolve y p) w) =
  if is_anchor_page (currentPath w)
  then Some (ScrollPosition.mk (currentPath w) y)
  else scrollPositionCache w.
Proof.
  change (exec (navigateTo_checked_at pushState_resolve y p) w)
    with (exec (navigateTo_checked pushState_resolve p) (with_window_scrollY y w)).
  rewrite navigateTo_checked_cache. reflexivity.
Qed.

Lemma navigateTo_checked_at_currentPath (y : Z) (p : string) (w : World) :
  currentPath (exec (navigateTo_checked_at pushState_resolve y p) w) =
  match pushState_resolve (location_pathname w) p with
  | Some _ => p
  | None => currentPath w
  end.
Proof.
  change (exec (navigateTo_checked_at pushState_resolve y p) w)
    with (exec (navigateTo_checked pushState_resolve p) (with_window_scrollY y w)).
  rewrite navigateTo_checked_currentPath. reflexivity.
Qed.

(** Among pages that are not anchor pages, accepted or refused, a call
    neither writes the cache nor reaches an anchor page. *)
Lemma navigate_through_checked_other_pages
      (steps : list (Z * string)) (w : World) :
  is_anchor_page (currentPath w) = false ->
  forallb (fun s => negb (is_anchor_page (snd s))) steps = true ->
  scrollPositionCache (navigate_through_checked pushState_resolve steps w)
  = scrollPositionCache w.
Proof.
  revert w. induction steps as [|[y p] steps IH]; intros w Hw Hs;
    [reflexivity|].
  cbn [navigate_through_checked forallb snd] in *.
  apply andb_true_iff in Hs as [Hp Hs]. apply negb_true_iff in Hp.
  rewrite IH; [| | assumption].
  - now rewrite navigateTo_checked_at_cache, Hw.
  - rewrite navigateTo_checked_at_currentPath.
    now destruct (pushState_resolve (location_pathname w) p).
Qed.

(** X7. The cached offset of an anchor page survives a detour among pages
    that are not anchor pages. When the anchor page is left at the offset
    [y] for such a page that the browser accepts, then any series of
    [navigateTo] calls to such pages follows, accepted or refused, and
    the browser accepts the anchor page, going back to the anchor page
    schedules one scroll restoration, to [y]. *)
Theorem X7_cache_survives_detour
        (w : World) (q : string) (steps : list (Z * string)) (y y' : Z) :
  is_anchor_page (currentPath w) = true ->
  is_anchor_page q = false ->
  (forall base, pushState_resolve base q <> None) ->
  (forall base, pushState_resolve base (currentPath w) <> None) ->
  forallb (fun s => negb (is_anchor_page (snd s))) steps = true ->
  scroll_restorations
    (effects (navigateTo_checked_at pushState_resolve y' (currentPath w))
       (navigate_through_checked pushState_resolve steps
          (exec (navigateTo_checked_at pushState_resolve y q) w)))
  = [y].
Proof.
  intros Ha Hq Rq Ra Hs.
  set (w1 := exec (navigateTo_checked_at pushState_resolve y q) w).
  set (w2 := navigate_through_checked pushState_resolve steps w1).
  assert (P1 : currentPath w1 = q).
  { unfold w1. rewrite navigateTo_checked_at_currentPath.
    destruct (pushState_resolve (location_pathname w) q) eqn:E;
      [reflexivity | exfalso; exact (Rq _ E)]. }
  assert (K1 : scrollPositionCache w1
               = Some (ScrollPosition.mk (currentPath w) y)).
  { unfold w1. now rewrite navigateTo_checked_at_cache, Ha. }
  assert (K2 : scrollPositionCache w2
               = Some (ScrollPosition.mk (currentPath w) y)).
  { unfold w2. rewrite navigate_through_checked_other_pages;
      [exact K1 | now rewrite P1 | assumption]. }
  change (effects (navigateTo_checked_at pushState_resolve y' (currentPath w))
                  w2)
    with (effects (navigateTo_checked pushState_resolve (currentPath w)) (with_window_scrollY y' w2)).
  destruct (pushState_resolve
              (location_pathname (with_window_scrollY y' w2)) (currentPath w))
    as [p'|] eqn:E; [|exfalso; exact (Ra _ E)].
  rewrite (navigateTo_checked_restorations _ p' _ E).
  cbn [scrollPositionCache with_window_scrollY].
  now rewrite K2, tryConsume_same.
Qed.

End CheckedNavigation.

Lemma X5_navigateTo_outcomes_witness :
  completion
    (navigateTo_checked sample_pushState_resolve "//elsewhere.example/x")
    sample_world
  = Throw SecurityError
  /\ currentPath
       (exec (navigateTo_checked sample_pushState_resolve
                                 "//elsewhere.example/x") sample_world)
     = "/notifications"
  /\ currentPath
       (exec (navigateTo_checked sample_pushState_resolve "/search?q=cats")
             sample_world)
     = "/search?q=cats"
  /\ location_pathname
       (exec (navigateTo_checked sample_pushState_resolve "/search?q=cats")
             sample_world)
     = "/search".
Proof.
  destruct (X5_navigateTo_outcomes sample_pushState_resolve
              "//elsewhere.example/x" sample_world) as (_ & R & _).
  destruct (R eq_refl) as (R1 & _ & R3 & _).
  destruct (X5_navigateTo_outcomes sample_pushState_resolve
              "/search?q=cats" sample_world) as (A & _).
  destruct (A "/search" eq_refl) as (_ & _ & A3 & A4).
  repeat split; assumption.
Defined.

Lemma X7_cache_survives_detour_witness :
  scroll_restorations
    (effects (navigateTo_checked_at sample_pushState_resolve 0
                                    "/notifications")
       (navigate_through_checked sample_pushState_resolve
          [(10%Z, "/search"); (20%Z, "//elsewhere.example/x")]
          (exec (navigateTo_checked_at sample_pushState_resolve 640 "/a@b")
                sample_world)))
  = [640%Z].
Proof.
  apply (X7_cache_survives_detour sample_pushState_resolve sample_world
           "/a@b" [(10%Z, "/search"); (20%Z, "//elsewhere.example/x")]
           640 0);
    solve [reflexivity | intros base; discriminate].
Defined.

Lemma step_cache_kept
      (URL_parse : string -> string -> option URL.t)
      (split_DRIVE_KEY_REGEX : string -> list string)
      (op : Operation) (w : World) :
  scrollPositionCache w <> None ->
  scrollPositionCache (exec (step URL_parse split_DRIVE_KEY_REGEX op) w)
  <> None.
Proof.
  assert (N : forall p w', scrollPositionCache w' <> None ->
                           scrollPositionCache (exec (navigateTo p) w')
                           <> None).
  { intros p w' H. rewrite navigateTo_cache.
    now destruct (is_anchor_page (currentPath w')). }
  intros H. destruct op as [setup|p|e|subject|url|loc state|y]; cbn [step].
  - unfold exec. now rewrite load_run.
  - now apply N.
  - unfold exec.
    destruct (onGlobalClick_cases URL_parse e w) as [E|[E|[p E]]];
      rewrite E; try assumption.
    now apply (N p (with_trace (trace w ++ [PreventDefault])%list w)).
  - now apply N.
  - now apply N.
  - unfold exec, bind, modify. rewrite onHistoryPopstate_run. exact H.
  - exact H.
Qed.

(** X9. Nothing ever empties the cache: once a position is cached, the
    cache holds a position after every operation; a restoration does not
    consume it. *)
Theorem X9_cache_never_emptied
        (URL_parse : string -> string -> option URL.t)
        (split_DRIVE_KEY_REGEX : string -> list string)
        (ops : list Operation) (w : World) :
  scrollPositionCache w <> None ->
  scrollPositionCache (run URL_parse split_DRIVE_KEY_REGEX ops w) <> None.
Proof.
  revert w. induction ops as [|op ops IH]; intros w H; cbn [run];
    [assumption|].
  apply IH. now apply step_cache_kept.
Qed.

Lemma X9_cache_never_emptied_witness :
  scrollPositionCache
    (run sample_URL_parse sample_split
         [NavigateTo "/notifications"; HistoryPopstate "/a@b" state_null;
          LoadSettled (Normal tt)]
         (exec (navigateTo "/a@b") sample_world))
  <> None.
Proof. apply X9_cache_never_emptied. discriminate. Defined.

(** X10. A restoration leaves the cached position in place, and the
    popstate handler does not touch it: after going to the cached page
    from a page that is not an anchor page, and then back or forward in
    the history, a new navigation to the cached page restores the same
    offset again. *)
Theorem X10_cached_offset_reused
        (w : World) (c : ScrollPosition.t) (location : string)
        (state : HistoryState) :
  scrollPositionCache w = Some c ->
  is_anchor_page (currentPath w) = false ->
  let p := ScrollPosition.pathname c in
  let w1 := exec (navigateTo p) w in
  let w2 := exec (onHistoryPopstate state)
                 (with_location_pathname location w1) in
  scroll_restorations (effects (navigateTo p) w)
  = [ScrollPosition.scrollY c]
  /\ scrollPositionCache w2 = Some c
  /\ scroll_restorations (effects (navigateTo p) w2)
     = [ScrollPosition.scrollY c].
Proof.
  intros Hc Ha p w1 w2.
  assert (T : tryConsume (Some c) p = Some (ScrollPosition.scrollY c)).
  { unfold tryConsume, p. now rewrite String.eqb_refl. }
  assert (Hw2 : scrollPositionCache w2 = Some c).
  { unfold w2, exec. rewrite onHistoryPopstate_run. cbn.
    unfold w1. now rewrite navigateTo_cache, Ha. }
  split; [|split; [exact Hw2|]].
  - now rewrite navigateTo_scroll_restorations, Hc, T.
  - now rewrite navigateTo_scroll_restorations, Hw2, T.
Qed.

Lemma X10_cached_offset_reused_witness :
  let w := exec (navigateTo_at 640 "/a@b") sample_world in
  let w1 := exec (navigateTo "/notifications") w in
  let w2 := exec (onHistoryPopstate (state_object (Some 0%Z)))
                 (with_location_pathname "/a@b" w1) in
  scroll_restorations (effects (navigateTo "/notifications") w) = [640%Z]
  /\ scrollPositionCache w2
     = Some (ScrollPosition.mk "/notifications" 640)
  /\ scroll_restorations (effects (navigateTo "/notifications") w2)
     = [640%Z].
Proof.
  intros w.
  apply (X10_cached_offset_reused w
           (ScrollPosition.mk "/notifications" 640) "/a@b"
           (state_object (Some 0%Z))); reflexivity.
Defined.

(** ** Back and forward, again *)

(** X11. The popstate handler writes nothing but the current path: the
    scroll-position cache, the location, the scroll-restoration mode and
    the loading flag are as before, no history entry is pushed or
    replaced, and the handler completes normally for every state other
    than [null]. *)
Theorem X11_popstate_writes_only_currentPath
        (state : HistoryState) (w : World) :
  scrollPositionCache (exec (onHistoryPopstate state) w)
  = scrollPositionCache w
  /\ location_pathname (exec (onHistoryPopstate state) w)
     = location_pathname w
  /\ history_scrollRestoration (exec (onHistoryPopstate state) w)
     = history_scrollRestoration w
  /\ isLoading (exec (onHistoryPopstate state) w) = isLoading w
  /\ filter is_history_write (effects (onHistoryPopstate state) w) = []
  /\ (state <> state_null ->
      completion (onHistoryPopstate state) w = Normal tt).
Proof.
  assert (E : effects (onHistoryPopstate state) w
              = ([Emit "close-all-popups";
                  SetCurrentPath (location_pathname w)]
                 ++ match state with
                    | state_object (Some n) =>
                        if (n =? 0)%Z then [] else [ScrollToAfterLoad n]
                    | _ => []
                    end)%list).
  { apply effects_of_trace. unfold exec. now rewrite onHistoryPopstate_run. }
  rewrite E. unfold exec, completion. rewrite onHistoryPopstate_run.
  cbn [fst snd]. repeat split.
  - destruct state as [|[n|]]; try reflexivity.
    now destruct (n =? 0)%Z.
  - intros H. destruct state; [congruence | reflexivity].
Qed.

Lemma X11_popstate_writes_only_currentPath_witness :
  completion (onHistoryPopstate (state_object None)) sample_world = Normal tt.
Proof.
  destruct (X11_popstate_writes_only_currentPath (state_object None)
              sample_world) as (_ & _ & _ & _ & _ & H).
  apply H. discriminate.
Defined.


(** ** Clicks, again *)

(** X13. A click that was already prevented, or whose anchor has no
    [href] attribute, is left alone: nothing is prevented, nothing is
    written, nothing is thrown. *)
Theorem X13_click_left_alone
        (URL_parse : string -> string -> option URL.t)
        (e : MouseEvent) (w : World) :
  defaultPrevented e = true
  \/ (exists anchor, findAnchor (composedPath e) = Some anchor
                     /\ href anchor = None) ->
  onGlobalClick URL_parse e w = (Normal tt, w).
Proof.
  unfold onGlobalClick. intros [H | (a & Ha & Hh)].
  - now rewrite H.
  - destruct (defaultPrevented e); [reflexivity|]. now rewrite Ha, Hh.
Qed.

Lemma X13_click_left_alone_witness :
  onGlobalClick sample_URL_parse
    {| defaultPrevented := false;
       composedPath := [element "SPAN";
                        {| tagName := Some "A"; href := None |};
                        element "BODY"] |} sample_world
  = (Normal tt, sample_world).
Proof.
  apply X13_click_left_alone. right.
  exists {| tagName := Some "A"; href := None |}. split; reflexivity.
Defined.

(** X14. When the [href] of the anchor is not a URL that [new URL] can
    build, the click handler throws the TypeError of the constructor:
    the default is not prevented and nothing has been written. *)
Theorem X14_click_on_invalid_href_throws
        (URL_parse : string -> string -> option URL.t)
        (e : MouseEvent) (w : World) (anchor : Node) (h : string) :
  defaultPrevented e = false ->
  findAnchor (composedPath e) = Some anchor ->
  href anchor = Some h ->
  URL_parse h (location_origin w) = None ->
  onGlobalClick URL_parse e w = (Throw TypeError, w).
Proof.
  intros Hp Ha Hh Hu. unfold onGlobalClick. rewrite Hp, Ha, Hh.
  cbv [bind gets]. now rewrite Hu.
Qed.

Lemma X14_click_on_invalid_href_throws_witness :
  onGlobalClick sample_URL_parse
    {| defaultPrevented := false;
       composedPath := [anchor_to "http://"; element "BODY"] |} sample_world
  = (Throw TypeError, sample_world).
Proof.
  apply (X14_click_on_invalid_href_throws sample_URL_parse _ sample_world
           (anchor_to "http://") "http://"); reflexivity.
Defined.

(** ** [view-thread] events *)

(** X15. The [view-thread] handler calls [navigateTo] with ['/'], the
    author, and the second piece of the split of the db URL; when the
    split gives fewer than two pieces, the second piece is [undefined]
    and the path ends with the word [undefined]. When the browser accepts
    that path the handler completes normally and the current path is that
    path; when it refuses it the handler completes by the SecurityError
    of [pushState] and the current path is as before. *)
Theorem X15_view_thread_outcomes
        (pushState_resolve : string -> string -> option string)
        (split_DRIVE_KEY_REGEX : string -> list string)
        (subject : Subject) (w : World) :
  let path :=
    "/" ++ authorId subject
        ++ nth 1 (split_DRIVE_KEY_REGEX (dbUrl subject)) "undefined" in
  let handler :=
    onViewThread_checked pushState_resolve split_DRIVE_KEY_REGEX subject in
  handler w = navigateTo_checked pushState_resolve path w
  /\ ((List.length (split_DRIVE_KEY_REGEX (dbUrl subject)) < 2)%nat ->
      path = "/" ++ authorId subject ++ "undefined")
  /\ (pushState_resolve (location_pathname w) path <> None ->
      completion handler w = Normal tt
      /\ currentPath (exec handler w) = path)
  /\ (pushState_resolve (location_pathname w) path = None ->
      completion handler w = Throw SecurityError
      /\ currentPath (exec handler w) = currentPath w).
Proof.
  intros path handler.
  assert (E : handler w = navigateTo_checked pushState_resolve path w)
    by reflexivity.
  split; [exact E|]. split; [|split].
  - intros H. unfold path. rewrite nth_overflow; [reflexivity | lia].
  - intros H. unfold completion, exec. rewrite E.
    destruct (pushState_resolve (location_pathname w) path) as [p|] eqn:R;
      [|congruence].
    rewrite (navigateTo_checked_accepted _ _ _ _ R). now split.
  - intros R. unfold completion, exec. rewrite E.
    rewrite (navigateTo_checked_refused _ _ _ R). now split.
Qed.

Lemma X15_view_thread_outcomes_witness :
  let handler subject :=
    onViewThread_checked sample_pushState_resolve (fun _ => ["hyper://key"])
                         subject in
  currentPath
    (exec (handler {| authorId := "a@b"; dbUrl := "hyper://key" |})
          sample_world)
  = "/a@bundefined"
  /\ completion
       (handler {| authorId := "/elsewhere.example"; dbUrl := "hyper://key" |})
       sample_world
     = Throw SecurityError.
Proof.
  intros handler. split.
  - destruct (X15_view_thread_outcomes sample_pushState_resolve
                (fun _ => ["hyper://key"])
                {| authorId := "a@b"; dbUrl := "hyper://key" |} sample_world)
      as (_ & _ & H & _).
    destruct H as [_ H]; [discriminate | exact H].
  - destruct (X15_view_thread_outcomes sample_pushState_resolve
                (fun _ => ["hyper://key"])
                {| authorId := "/elsewhere.example"; dbUrl := "hyper://key" |}
                sample_world) as (_ & _ & _ & H).
    destruct H as [H _]; [reflexivity | exact H].
Defined.

(** X16. Viewing a thread lands on the thread view: when the author is
    [u@h], with [u] and [h] non-empty and free of ['/'], the second piece
    of the db URL is ['/ctzn.network/post/'] or ['/ctzn.network/comment/']
    followed by a key, and the browser accepts the path made of them, the
    handler completes normally, the current path is that path and it
    resolves to the thread view. *)
Theorem X16_view_thread_lands_on_thread
        (pushState_resolve : string -> string -> option string)
        (split_DRIVE_KEY_REGEX : string -> list string)
        (subject : Subject) (w : World)
        (u h lit rest : string) (c : ascii) :
  authorId subject = u ++ "@" ++ h ->
  u <> EmptyString -> slash_free u -> h <> EmptyString -> slash_free h ->
  lit = "/ctzn.network/post/" \/ lit = "/ctzn.network/comment/" ->
  c <> "/"%char ->
  nth 1 (split_DRIVE_KEY_REGEX (dbUrl subject)) "undefined"
  = lit ++ String c rest ->
  pushState_resolve (location_pathname w)
    ("/" ++ u ++ "@" ++ h ++ lit ++ String c rest) <> None ->
  let handler :=
    onViewThread_checked pushState_resolve split_DRIVE_KEY_REGEX subject in
  completion handler w = Normal tt
  /\ currentPath (exec handler w)
     = "/" ++ u ++ "@" ++ h ++ lit ++ String c rest
  /\ resolve (currentPath (exec handler w))
     = ctzn_post_view (currentPath (exec handler w)).
Proof.
  intros Ha Hu Hau Hh Hah Hlit Hc Hn R handler.
  set (path := "/" ++ u ++ "@" ++ h ++ lit ++ String c rest) in *.
  assert (E : handler w = navigateTo_checked pushState_resolve path w).
  { unfold handler, onViewThread_checked. rewrite Ha, Hn.
    rewrite string_app_assoc. reflexivity. }
  destruct (pushState_resolve (location_pathname w) path) as [p|] eqn:A;
    [|congruence].
  assert (P : currentPath (exec handler w) = path).
  { unfold exec. rewrite E, (navigateTo_checked_accepted _ _ _ _ A).
    reflexivity. }
  split; [|split; [exact P|]].
  - unfold completion. now rewrite E, (navigateTo_checked_accepted _ _ _ _ A).
  - rewrite P.
    apply (resolve_thread_general lit EmptyString u h lit rest c);
      try assumption.
    destruct Hlit as [-> | ->]; reflexivity.
Qed.

Lemma X16_view_thread_lands_on_thread_witness :
  let handler :=
    onViewThread_checked sample_pushState_resolve sample_split
      {| authorId := "a@b"; dbUrl := "hyper://key/ctzn.network/post/1" |} in
  completion handler sample_world = Normal tt
  /\ currentPath (exec handler sample_world) = "/a@b/ctzn.network/post/1"
  /\ resolve (currentPath (exec handler sample_world))
     = ctzn_post_view (currentPath (exec handler sample_world)).
Proof.
  apply (X16_view_thread_lands_on_thread sample_pushState_resolve
           sample_split
           {| authorId := "a@b"; dbUrl := "hyper://key/ctzn.network/post/1" |}
           sample_world "a" "b" "/ctzn.network/post/" EmptyString "1"%char);
    solve [reflexivity | discriminate | left; reflexivity].
Defined.

(** ** Loading and construction *)

Lemma resolve_not_spinner (path : string) : resolve path <> Spinner.
Proof.
  unfold resolve. destruct (top_level path) as [v|] eqn:E.
  - now apply top_level_view in E.
  - destruct (RegExp.test POST_PATH_REGEX path); [discriminate|].
    destruct (RegExp.test COMMENT_PATH_REGEX path); [discriminate|].
    destruct (RegExp.test USER_PATH_REGEX path); discriminate.
Qed.

(** X17. Loading is one-way: once the loading flag is false, it is false
    after every series of operations, and the spinner is not rendered
    again. *)
Theorem X17_loading_never_returns
        (URL_parse : string -> string -> option URL.t)
        (split_DRIVE_KEY_REGEX : string -> list string)
        (ops : list Operation) (w : World) :
  isLoading w = false ->
  let w' := run URL_parse split_DRIVE_KEY_REGEX ops w in
  isLoading w' = false
  /\ render (isLoading w') (currentPath w') <> Spinner.
Proof.
  intros H w'.
  assert (L : isLoading w' = false).
  { unfold w'. clear w'. revert w H.
    induction ops as [|op ops IH]; intros w H; cbn [run]; [assumption|].
    apply IH. now apply isLoading_one_way. }
  split; [exact L|]. rewrite L. apply resolve_not_spinner.
Qed.

Lemma X17_loading_never_returns_witness :
  let w' := run sample_URL_parse sample_split
                [NavigateTo "/a@b"; HistoryPopstate "/" state_null;
                 LoadSettled (Throw TypeError)] sample_world in
  isLoading w' = false
  /\ render (isLoading w') (currentPath w') <> Spinner.
Proof. apply X17_loading_never_returns. reflexivity. Defined.


(** ** The scroll itself *)

(** X19. The body of [scrollToAfterLoad] never throws, whatever the view
    method does. While the spinner or the 404 page is shown there is no
    element with the id [view] and nothing is done at all; the same holds
    for a view without the method; otherwise the method of the view is
    called with the offset, and what it throws is dropped. *)
Theorem X19_scroll_is_best_effort
        (pageLoadScrollTo : View -> option (Z -> M unit))
        (y : Z) (w : World) :
  completion (scrollToAfterLoad_resume pageLoadScrollTo y) w = Normal tt
  /\ (isLoading w = true ->
      exec (scrollToAfterLoad_resume pageLoadScrollTo y) w = w)
  /\ (isLoading w = false -> resolve (currentPath w) = NotFound404 ->
      exec (scrollToAfterLoad_resume pageLoadScrollTo y) w = w)
  /\ (forall v, querySelector_view w = Some v ->
                pageLoadScrollTo v = None ->
                exec (scrollToAfterLoad_resume pageLoadScrollTo y) w = w)
  /\ (forall v method,
         querySelector_view w = Some v ->
         pageLoadScrollTo v = Some method ->
         exec (scrollToAfterLoad_resume pageLoadScrollTo y) w
         = exec (method y) w).
Proof.
  assert (N : querySelector_view w = None ->
              exec (scrollToAfterLoad_resume pageLoadScrollTo y) w = w).
  { intros H. unfold exec, scrollToAfterLoad_resume, try_catch_ignore,
      bind, gets. now rewrite H. }
  split; [|split; [|split; [|split]]].
  - unfold completion, scrollToAfterLoad_resume, try_catch_ignore, bind, gets.
    destruct (querySelector_view w) as [v|]; [|reflexivity].
    destruct (pageLoadScrollTo v) as [m|]; [|reflexivity].
    now destruct (m y w) as [[] ?].
  - intros H. apply N. unfold querySelector_view. now rewrite H.
  - intros H R. apply N. unfold querySelector_view, render.
    now rewrite H, R.
  - intros v Hv Hm. unfold exec, scrollToAfterLoad_resume, try_catch_ignore,
      bind, gets. now rewrite Hv, Hm.
  - intros v m Hv Hm. unfold exec, scrollToAfterLoad_resume,
      try_catch_ignore, bind, gets. rewrite Hv, Hm.
    now destruct (m y w) as [[] ?].
Qed.

Lemma X19_scroll_is_best_effort_witness :
  let hook (v : View) : option (Z -> M unit) :=
    Some (fun y => modify (with_window_scrollY y) ;; throw TypeError) in
  exec (scrollToAfterLoad_resume hook 640) (with_isLoading true sample_world)
  = with_isLoading true sample_world
  /\ window_scrollY (exec (scrollToAfterLoad_resume hook 640) sample_world)
     = 640%Z.
Proof.
  intros hook. split.
  - destruct (X19_scroll_is_best_effort hook 640
                (with_isLoading true sample_world)) as (_ & H & _).
    apply H. reflexivity.
  - destruct (X19_scroll_is_best_effort hook 640 sample_world)
      as (_ & _ & _ & _ & H).
    rewrite (H ctzn_notifications_view
               (fun y => modify (with_window_scrollY y) ;; throw TypeError));
      reflexivity.
Defined.
